(** * ProjectTwo.cpp: the course catalogue (hash table, CSV reader,
      validator and quicksort), embedded and checked against its
      specification.

    Conventions of the embedding.
    - [std::string] is [string]; a [char] is an [ascii].
    - [int], [unsigned int] and [size_t] values are integers of [Z]; every
      conversion between them and every operation that can leave the type's
      range is written with its wrap-around ([to_int], [to_unsigned],
      [to_size_t]).  The target is the usual LP64 one: 32-bit [int], 64-bit
      [size_t], signed [char].
    - A call that cannot continue (a thrown [std::out_of_range], a division
      by zero, a null pointer that is dereferenced) is a [Fault]; everything
      else is [Done].
    - A heap node owned through a [Node *] is a value of [NodePtr]; every
      node is allocated by its own [new] and linked once, so chains never
      share nodes.  (The one copy of a node that the code makes, in
      [remove], of the first chain node into its slot, leaves the original
      out of reach.) *)

From Stdlib Require Import ZArith Lia Ascii String.
From stdpp Require Import base list strings gmap sorting.

Local Open Scope Z_scope.
#[local] Set Warnings "-clear-no-such-hyp".

(** ** Outcomes *)

Inductive fault : Type :=
  | DivideByZero      (* [x % 0] *)
  | NullDereference   (* [p->next] with [p == nullptr] *)
  | OutOfRange        (* [std::out_of_range] from [at] or [substr] *)
  | OutOfFuel.        (* the recursion bound of the model was reached *)

Inductive outcome (A : Type) : Type :=
  | Done (a : A)
  | Fault (f : fault).
Arguments Done {A} a.
Arguments Fault {A} f.

#[global] Instance outcome_ret : MRet outcome := fun A a => Done a.
#[global] Instance outcome_bind : MBind outcome := fun A B k m =>
  match m with
  | Done a => k a
  | Fault f => Fault f
  end.

(** ** Machine integers *)

Definition INT_MAX : Z := 2147483647.
Definition INT_MIN : Z := -2147483648.
Definition UINT_MAX : Z := 4294967295.
Definition SIZE_MAX : Z := 18446744073709551615.

(* conversion to [int]: two's complement, 32 bits *)
Definition to_int (x : Z) : Z := (x + 2147483648) mod 4294967296 - 2147483648.
(* conversion to [unsigned int] *)
Definition to_unsigned (x : Z) : Z := x mod 4294967296.
(* conversion to [size_t] *)
Definition to_size_t (x : Z) : Z := x mod 18446744073709551616.

(* [key[i]] promoted to [int]: [char] is signed *)
Definition char_to_int (c : ascii) : Z :=
  let n := Z.of_N (N_of_ascii c) in
  if n <? 128 then n else n - 256.

(* [static_cast<int>(pow(31, i))].  The power is exact in a [double] while
   it fits an [int]; from [i = 7] on it does not fit, the language leaves
   the conversion undefined, and the x86-64 instruction that performs it
   gives the "integer indefinite" value [INT_MIN]. *)
Definition pow31 (i : Z) : Z :=
  let p := 31 ^ i in
  if p <=? INT_MAX then p else INT_MIN.

(** ** Data *)

Record Course : Type := mkCourse {
  number : string;
  title : string;
  prerequisites : list string
}.

(* [Course {}] *)
Definition Course_empty : Course :=
  {| number := ""; title := ""; prerequisites := [] |}.

#[global] Instance Course_eq_dec : EqDecision Course.
Proof. solve_decision. Defined.

(* A [Node *]: null, or the heap node it owns, with that node's fields. *)
Inductive NodePtr : Type :=
  | nullptr
  | heap (h_course : Course) (h_key : Z) (h_next : NodePtr).

(* A [Node] held by value: a slot of [m_nodes], or a copy of one. *)
Record Node : Type := mkNode {
  course : Course;
  key : Z;
  next : NodePtr
}.

(* [Node()] *)
Definition Node_empty : Node :=
  {| course := Course_empty; key := UINT_MAX; next := nullptr |}.

(* [new Node (n)] *)
Definition new_Node (n : Node) : NodePtr := heap (course n) (key n) (next n).

Record HashTable : Type := mkHashTable {
  m_nodes : list Node;
  m_size : Z
}.

(* [HashTable(t_size)]: [m_nodes.resize(m_size)] *)
Definition HashTable_new (t_size : Z) : HashTable :=
  {| m_nodes := replicate (Z.to_nat t_size) Node_empty; m_size := t_size |}.

(* [HashTable()] *)
Definition HashTable_default : HashTable := HashTable_new 179.

(* [v.at(i)], the index converted to [size_t] *)
Definition at_ {A : Type} (v : list A) (i : Z) : outcome A :=
  if (0 <=? i) && (i <? Z.of_nat (length v))
  then match v !! Z.to_nat i with
       | Some a => Done a
       | None => Fault OutOfRange
       end
  else Fault OutOfRange.

(* [v.at(i) = a] *)
Definition set_at {A : Type} (v : list A) (i : Z) (a : A) : outcome (list A) :=
  if (0 <=? i) && (i <? Z.of_nat (length v))
  then Done (<[Z.to_nat i := a]> v)
  else Fault OutOfRange.

(** ** HashTable::hash *)

(* [s.length()] *)
Definition size (s : string) : Z := Z.of_nat (String.length s).

(* The [for] loop of [hash], from the [int] index [i] on, over the
   characters of the key that remain; [length] is [key.length()].  [sum] is
   a [size_t]; each term is an [int] product converted to [unsigned int] by
   the [%] with [m_size]. *)
Fixpoint hash_loop (m_size length : Z) (key : string) (i : Z) (sum : Z)
  : outcome Z :=
  match key with
  | EmptyString => Done sum
  | String c rest =>
      if to_size_t i <? length then
        if m_size =? 0 then Fault DivideByZero
        else
          let term := to_unsigned (to_int (char_to_int c * pow31 i)) mod m_size in
          hash_loop m_size length rest (to_int (i + 1)) (to_size_t (sum + term))
      else Done sum
  end.

(* [size_t sum;] has no initialiser: [sum0] is the value the variable
   happens to hold when the call starts. *)
Definition hash (sum0 : Z) (m_size : Z) (key : string) : outcome Z :=
  sum ← hash_loop m_size (size key) key 0 sum0;
  if m_size =? 0 then Fault DivideByZero else Done (sum mod m_size).

(** ** HashTable::insert *)

(* [while (cur_node->next != nullptr) cur_node = cur_node->next;
    cur_node->next = n]: the chain that starts at [p], with [n] linked
   after its last node. *)
Fixpoint link_last (p : NodePtr) (n : NodePtr) : NodePtr :=
  match p with
  | nullptr => n
  | heap c k p' => heap c k (link_last p' n)
  end.

Definition insert (sum0 : Z) (t : HashTable) (c : Course) : outcome HashTable :=
  k ← hash sum0 (m_size t) (number c);
  head ← at_ (m_nodes t) k;
  if key head =? UINT_MAX then
    nodes ← set_at (m_nodes t) k (mkNode c k nullptr);
    Done {| m_nodes := nodes; m_size := m_size t |}
  else
    nodes ← set_at (m_nodes t) k
              {| course := course head; key := key head;
                 next := link_last (next head) (new_Node (mkNode c k nullptr)) |};
    Done {| m_nodes := nodes; m_size := m_size t |}.

(** ** HashTable::toVector *)

(* [while (cur_node != nullptr)] of [toVector] *)
Fixpoint chain_courses (cur_node : NodePtr) : list Course :=
  match cur_node with
  | nullptr => []
  | heap c _ p => c :: chain_courses p
  end.

Definition slot_courses (head : Node) : list Course :=
  if key head =? UINT_MAX then [] else course head :: chain_courses (next head).

Definition toVector (t : HashTable) : list Course :=
  flat_map slot_courses (m_nodes t).

(** ** HashTable::remove *)

(* The chain-scan loop of [remove], entered with [cur_node->next = p]; the
   result is the value [cur_node->next] has when the loop is over.  After a
   node is unlinked the loop still moves [cur_node] to [cur_node->next]; when
   that is null, the loop test reads [cur_node->next] through it. *)
Fixpoint remove_loop (course_number : string) (p : NodePtr) : outcome NodePtr :=
  match p with
  | nullptr => Done nullptr
  | heap c k p' =>
      if String.eqb (number c) course_number then
        (* temp = cur_node->next; cur_node->next = temp->next; delete temp;
           cur_node = cur_node->next *)
        match p' with
        | nullptr => Fault NullDereference
        | heap c' k' p'' =>
            r ← remove_loop course_number p'';
            Done (heap c' k' r)
        end
      else
        (* cur_node = cur_node->next *)
        r ← remove_loop course_number p';
        Done (heap c k r)
  end.

Definition remove (sum0 : Z) (t : HashTable) (course_number : string)
  : outcome HashTable :=
  k ← hash sum0 (m_size t) course_number;
  head ← at_ (m_nodes t) k;
  if key head =? UINT_MAX then Done t
  else if String.eqb (number (course head)) course_number then
    match next head with
    | heap c k' p =>
        nodes ← set_at (m_nodes t) k (mkNode c k' p);
        Done {| m_nodes := nodes; m_size := m_size t |}
    | nullptr =>
        nodes ← set_at (m_nodes t) k Node_empty;
        Done {| m_nodes := nodes; m_size := m_size t |}
    end
  else
    p ← remove_loop course_number (next head);
    nodes ← set_at (m_nodes t) k
              {| course := course head; key := key head; next := p |};
    Done {| m_nodes := nodes; m_size := m_size t |}.

(** ** HashTable::search *)

(* [while (cur_node != nullptr)] of [search]: the first match, if any *)
Fixpoint search_chain (course_number : string) (cur_node : NodePtr)
  : option Course :=
  match cur_node with
  | nullptr => None
  | heap c _ p =>
      if String.eqb (number c) course_number then Some c
      else search_chain course_number p
  end.

Definition search (sum0 : Z) (t : HashTable) (course_number : string)
  : outcome Course :=
  k ← hash sum0 (m_size t) course_number;
  head ← at_ (m_nodes t) k;
  if key head =? UINT_MAX then Done Course_empty
  else if String.eqb (number (course head)) course_number then
    Done (course head)
  else
    match search_chain course_number (next head) with
    | Some c => Done c
    | None => Done Course_empty
    end.

(* [case 3] of [main]: what is printed for the result of [search] *)
Inductive printed : Type :=
  | CouldNotFind (course_number : string)
  | PrintCourse (c : Course).

Definition find_and_print (sum0 : Z) (t : HashTable) (course_number : string)
  : outcome printed :=
  result ← search sum0 t course_number;
  if String.eqb (title result) "" then Done (CouldNotFind course_number)
  else Done (PrintCourse result).

(** ** Quicksort *)

(* Every loop of [Quicksort] is bounded by [fuel]; a loop that reaches the
   bound ends in [Fault OutOfFuel].  The indices are [int]s. *)

(* [while (courses->at(low).number.compare(pivot) < 0) low += 1;] *)
Fixpoint scan_low (fuel : nat) (courses : list Course) (pivot : string)
    (low : Z) : outcome Z :=
  match fuel with
  | O => Fault OutOfFuel
  | S fuel' =>
      c ← at_ courses low;
      if String.ltb (number c) pivot
      then scan_low fuel' courses pivot (to_int (low + 1))
      else Done low
  end.

(* [while (pivot.compare(courses->at(high).number) < 0) high -= 1;] *)
Fixpoint scan_high (fuel : nat) (courses : list Course) (pivot : string)
    (high : Z) : outcome Z :=
  match fuel with
  | O => Fault OutOfFuel
  | S fuel' =>
      c ← at_ courses high;
      if String.ltb pivot (number c)
      then scan_high fuel' courses pivot (to_int (high - 1))
      else Done high
  end.

(* the exchange of [courses->at(low)] and [courses->at(high)] *)
Definition swap (courses : list Course) (low high : Z) : outcome (list Course) :=
  temp ← at_ courses low;
  c ← at_ courses high;
  courses ← set_at courses low c;
  set_at courses high temp.

(* [while (!done)] of the [partition] lambda; [n] bounds its iterations *)
Fixpoint partition_loop (n fuel : nat) (courses : list Course)
    (pivot : string) (low high : Z) : outcome (list Course * Z) :=
  match n with
  | O => Fault OutOfFuel
  | S n' =>
      low ← scan_low fuel courses pivot low;
      high ← scan_high fuel courses pivot high;
      if high <=? low then Done (courses, high)
      else
        courses ← swap courses low high;
        partition_loop n' fuel courses pivot (to_int (low + 1)) (to_int (high - 1))
  end.

Definition partition (fuel : nat) (courses : list Course) (low high : Z)
  : outcome (list Course * Z) :=
  let midpoint := to_int (low + to_int (high - low) `quot` 2) in
  c ← at_ courses midpoint;
  partition_loop fuel fuel courses (number c) low high.

Fixpoint Quicksort_rec (depth fuel : nat) (courses : list Course)
    (lowIndex highIndex : Z) : outcome (list Course) :=
  match depth with
  | O => Fault OutOfFuel
  | S depth' =>
      if highIndex <=? lowIndex then Done courses
      else
        '(courses, lowEndIndex) ← partition fuel courses lowIndex highIndex;
        courses ← Quicksort_rec depth' fuel courses lowIndex lowEndIndex;
        Quicksort_rec depth' fuel courses (to_int (lowEndIndex + 1)) highIndex
  end.

Definition Quicksort (fuel : nat) (courses : list Course)
    (lowIndex highIndex : Z) : outcome (list Course) :=
  Quicksort_rec fuel fuel courses lowIndex highIndex.

(* [case 2] of [main]: [toVector], then [Quicksort(&courses, 0,
   courses.size() - 1)]; the [size_t] difference becomes an [int]. *)
Definition list_sorted (fuel : nat) (t : HashTable) : outcome (list Course) :=
  let courses := toVector t in
  Quicksort fuel courses 0 (to_int (to_size_t (Z.of_nat (length courses) - 1))).

(** ** Reading rows and fields *)

Definition ROW_DEL : ascii := "010".
Definition COL_DEL : ascii := ",".

(* [std::string::npos] *)
Definition npos : Z := SIZE_MAX.

(* the search of [find] over what is left of the string: [skip] characters
   are still before the start position, [pos] is the index of the first
   character of [s] *)
Fixpoint find_aux (s : string) (c : ascii) (skip : nat) (pos : Z) : Z :=
  match s with
  | EmptyString => npos
  | String a s' =>
      match skip with
      | S skip' => find_aux s' c skip' (pos + 1)
      | O => if Ascii.eqb a c then pos else find_aux s' c O (pos + 1)
      end
  end.

(* [row.find(c, pos)] *)
Definition find (row : string) (c : ascii) (pos : Z) : Z :=
  if size row <=? pos then npos else find_aux row c (Z.to_nat pos) 0.

(* [row.substr(pos, n)]: throws when [pos > size()], and is cut at the end
   of the string *)
Definition substr (row : string) (pos n : Z) : outcome string :=
  if size row <? pos then Fault OutOfRange
  else Done (substring (Z.to_nat pos) (Z.to_nat (Z.min n (size row - pos))) row).

(* the [std::string] built from the result of [data()], a C string: the
   characters before the first NUL *)
Fixpoint c_str (s : string) : string :=
  match s with
  | EmptyString => EmptyString
  | String a s' => if Ascii.eqb a zero then EmptyString else String a (c_str s')
  end.

(* the rows that the successive calls [getline(csv, row, ROW_DEL)] give: a
   call fails, and ends the loop, when it extracts no character at all *)
Fixpoint getlines (file : string) : list string :=
  match file with
  | EmptyString => []
  | String a rest =>
      if Ascii.eqb a ROW_DEL then EmptyString :: getlines rest
      else match getlines rest with
           | [] => [String a EmptyString]
           | row :: rows => String a row :: rows
           end
  end.

(* a file that cannot be opened ([None]) gives no row *)
Definition file_rows (file : option string) : list string :=
  match file with
  | Some text => getlines text
  | None => []
  end.

(* The loop over the columns of a row is the same text in [loadFromCSV] and
   in [ValidateFile], up to the body of the [switch]; [on_field] is that
   body.  [start], [end] and the field count are [int]s. *)
Section field_loop.
Context {St : Type} (on_field : Z → string → St → St).

Fixpoint field_loop (fuel : nat) (row : string) (start field_count : Z)
    (st : St) : outcome (Z * Z * St) :=
  match fuel with
  | O => Fault OutOfFuel
  | S fuel' =>
      let end_ := to_int (find row COL_DEL (to_size_t start)) in
      if to_size_t end_ =? npos then Done (start, field_count, st)
      else
        field ← substr row (to_size_t start) (to_size_t (to_int (end_ - start)));
        if to_int (end_ - start) =? 0
        then field_loop fuel' row (to_int (end_ + 1)) field_count st
        else field_loop fuel' row (to_int (end_ + 1))
               (to_int (field_count + 1)) (on_field field_count field st)
  end.
End field_loop.

(* [if (start < row.length() - 1)] and the [substr] under it *)
Definition trailing (row : string) (start : Z) : outcome (option string) :=
  if to_size_t start <? to_size_t (size row - 1)
  then
    s ← substr row (to_size_t start) (to_size_t (size row - to_size_t start - 1));
    Done (Some s)
  else Done None.

(** ** HashTable::loadFromCSV *)

(* the [switch] of [loadFromCSV] *)
Definition load_field (field_count : Z) (field : string) (c : Course) : Course :=
  if field_count =? 0
  then {| number := field; title := title c; prerequisites := prerequisites c |}
  else if field_count =? 1
  then {| number := number c; title := field; prerequisites := prerequisites c |}
  else {| number := number c; title := title c;
          prerequisites := prerequisites c ++ [field] |}.

(* the body of the loop over the rows, up to the call of [insert] *)
Definition read_row (row : string) : outcome Course :=
  '(start, _, c) ← field_loop load_field (S (String.length row)) row 0 0 Course_empty;
  rest ← trailing row start;
  match rest with
  | Some s => Done {| number := number c; title := title c;
                      prerequisites := prerequisites c ++ [c_str s] |}
  | None => Done c
  end.

(* [sum0 i] is the value that [sum] holds at the start of the call of [hash]
   made for row [i] *)
Fixpoint load_rows (sum0 : nat → Z) (i : nat) (t : HashTable)
    (rows : list string) : outcome HashTable :=
  match rows with
  | [] => Done t
  | row :: rows' =>
      c ← read_row row;
      t ← insert (sum0 i) t c;
      load_rows sum0 (S i) t rows'
  end.

Definition loadFromCSV (sum0 : nat → Z) (t : HashTable) (file : option string)
  : outcome HashTable :=
  load_rows sum0 0 t (file_rows file).

(** ** ValidateFile *)

(* the [switch] of [ValidateFile], on the sets [courses] and
   [prerequisites] *)
Definition validate_field (cur_field : Z) (field : string)
    (sets : gset string * gset string) : gset string * gset string :=
  if cur_field =? 0 then ({[field]} ∪ sets.1, sets.2)
  else if cur_field =? 1 then sets
  else (sets.1, {[field]} ∪ sets.2).

(* The loop over the rows, with the two sets and [row_count] as they are
   when [rows] remain to be read; the case of no row left is the code after
   the loop. *)
Fixpoint validate_rows (rows : list string) (sets : gset string * gset string)
    (row_count : Z) : outcome Z :=
  match rows with
  | [] =>
      if forallb (λ p, bool_decide (p ∈ sets.1)) (elements sets.2)
      then Done row_count
      else Done (-1)
  | row :: rows' =>
      '(start, cur_field, sets) ←
         field_loop validate_field (S (String.length row)) row 0 0 sets;
      rest ← trailing row start;
      let sets := match rest with
                  | Some s => (sets.1, {[s]} ∪ sets.2)
                  | None => sets
                  end in
      if cur_field <? 2 then Done (-1)
      else validate_rows rows' sets (to_int (row_count + 1))
  end.

Definition ValidateFile (file : option string) : outcome Z :=
  validate_rows (file_rows file) (∅, ∅) 0.

(* [main] up to the menu: the table is built only for a validated file,
   with the row count as its size *)
Definition main_table (file : option string) : outcome (option HashTable) :=
  num_courses ← ValidateFile file;
  if num_courses <? 0 then Done None
  else Done (Some (HashTable_new (to_unsigned num_courses))).

(** ** operator<< of Course *)

(* what [std::endl] writes *)
Definition endl : string := String "010" "".

(* The [for] loop of [operator<<], from the [int] index [i] on; [rest] are
   the prerequisites that are still to come and [size] is
   [course.prerequisites.size()].  The result is the text sent to
   [std::cout]. *)
Fixpoint print_prerequisites (size : Z) (prerequisites rest : list string)
    (i : Z) : outcome string :=
  match rest with
  | [] => Done ""
  | _ :: rest' =>
      if to_size_t i <? size then
        if to_size_t i =? to_size_t (size - 1) then
          p ← at_ prerequisites i;
          out ← print_prerequisites size prerequisites rest' (to_int (i + 1));
          Done (p +:+ out)
        else
          p ← at_ prerequisites i;
          out ← print_prerequisites size prerequisites rest' (to_int (i + 1));
          Done (p +:+ ", " +:+ out)
      else Done ""
  end.

(* [std::cout << course]: the operator writes to [std::cout], whatever the
   stream it is given *)
Definition print_Course (c : Course) : outcome string :=
  out ← print_prerequisites (Z.of_nat (length (prerequisites c)))
          (prerequisites c) (prerequisites c) 0;
  Done ("Number: " +:+ number c +:+ endl +:+ "Title: " +:+ title c +:+ endl
        +:+ "Prerequisites: " +:+ out).

(** * Vocabulary of the statements *)

(** ** Tables *)

(* what the constructor establishes and every operation keeps: as many
   slots as [m_size], an [unsigned int] that is not zero *)
Definition table_ok (t : HashTable) : Prop :=
  0 < m_size t <= UINT_MAX ∧ Z.of_nat (length (m_nodes t)) = m_size t.

(* the tables that a run builds: a new table, then inserts *)
Inductive inserted : HashTable → list Course → Prop :=
  | inserted_new t_size :
      0 < t_size <= UINT_MAX → inserted (HashTable_new t_size) []
  | inserted_insert t cs sum0 c t' :
      inserted t cs → insert sum0 t c = Done t' → inserted t' (cs ++ [c]).

(* the same, when every call of [hash] starts from the value [sum0] *)
Inductive inserted_from (sum0 : Z) : HashTable → list Course → Prop :=
  | inserted_from_new t_size :
      0 < t_size <= UINT_MAX → inserted_from sum0 (HashTable_new t_size) []
  | inserted_from_insert t cs c t' :
      inserted_from sum0 t cs → insert sum0 t c = Done t' →
      inserted_from sum0 t' (cs ++ [c]).

(* the records of a list that have the number, in their order *)
Definition with_number (course_number : string) (cs : list Course)
  : list Course :=
  filter (λ c, number c = course_number) cs.

(* the keys that the nodes of a chain hold *)
Fixpoint chain_keys (p : NodePtr) : list Z :=
  match p with
  | nullptr => []
  | heap _ k p' => k :: chain_keys p'
  end.

(* slot [k] is not in use and has no chain, or its head and the nodes of its
   chain all hold the key [k] *)
Definition slot_ok (k : Z) (head : Node) : Prop :=
  (key head = UINT_MAX ∧ next head = nullptr)
  ∨ (key head = k ∧ Forall (λ k', k' = k) (chain_keys (next head))).

Definition keys_ok (t : HashTable) : Prop :=
  ∀ (i : nat) head, m_nodes t !! i = Some head → slot_ok (Z.of_nat i) head.

(* the chain [p'] is the chain [p] without some nodes that hold a record
   with the number *)
Inductive unlinked (course_number : string) : NodePtr → NodePtr → Prop :=
  | unlinked_end : unlinked course_number nullptr nullptr
  | unlinked_keep c k p p' :
      unlinked course_number p p' →
      unlinked course_number (heap c k p) (heap c k p')
  | unlinked_drop c k p p' :
      number c = course_number →
      unlinked course_number p p' →
      unlinked course_number (heap c k p) p'.

(* what [search] returns from the slot of the number *)
Definition slot_find (course_number : string) (head : Node) : Course :=
  if key head =? UINT_MAX then Course_empty
  else if String.eqb (number (course head)) course_number then course head
  else match search_chain course_number (next head) with
       | Some c => c
       | None => Course_empty
       end.

(** ** Rows and files *)

(* [c] occurs in [s] *)
Fixpoint contains (c : ascii) (s : string) : bool :=
  match s with
  | EmptyString => false
  | String a s' => Ascii.eqb a c || contains c s'
  end.

(* [s] without its last character *)
Fixpoint drop_last (s : string) : string :=
  match s with
  | EmptyString => EmptyString
  | String a EmptyString => EmptyString
  | String a s' => String a (drop_last s')
  end.

(* A row is read as fields that are each followed by a delimiter, and a
   rest after the last delimiter. *)
Fixpoint delimited (fields : list string) : string :=
  match fields with
  | [] => ""
  | f :: fields' => f +:+ String COL_DEL (delimited fields')
  end.

Definition row_text (r : list string * string) : string :=
  delimited r.1 +:+ r.2.

(* the fields that are not empty *)
Definition filled (fields : list string) : list string :=
  filter (λ f, f ≠ "") fields.

(* what the code keeps of the rest of a row: nothing of a rest shorter than
   two characters, otherwise the rest without its last character; the empty
   row gives the empty string *)
Definition kept_rest (row rest : string) : option string :=
  if size row =? 0 then Some ""
  else if 2 <=? size rest then Some (drop_last rest)
  else None.

(* fields and rest do not hold a delimiter, and the row fits an [int] *)
Definition row_wf (r : list string * string) : Prop :=
  Forall (λ f, contains COL_DEL f = false) r.1
  ∧ contains COL_DEL r.2 = false
  ∧ size (row_text r) <= INT_MAX.

(* every row is some fields with their delimiters, and a rest *)
Fixpoint split_row (row : string) : list string * string :=
  match row with
  | EmptyString => ([], "")
  | String a row' =>
      let (fields, rest) := split_row row' in
      if Ascii.eqb a COL_DEL then ("" :: fields, rest)
      else match fields with
           | [] => ([], String a rest)
           | f :: fields' => (String a f :: fields', rest)
           end
  end.

Section apply_fields.
Context {St : Type} (on_field : Z → string → St → St).

(* the effect of the loop on the delimited fields, in order: an empty
   field is skipped and is not counted *)
Fixpoint apply_fields (field_count : Z) (fields : list string) (st : St)
  : Z * St :=
  match fields with
  | [] => (field_count, st)
  | f :: fields' =>
      if String.eqb f "" then apply_fields field_count fields' st
      else apply_fields (field_count + 1) fields' (on_field field_count f st)
  end.
End apply_fields.

(* the record made of the filled fields, by position *)
Definition course_of (fs : list string) : Course :=
  {| number := nth 0 fs ""; title := nth 1 fs ""; prerequisites := drop 2 fs |}.

(* the course number that a row gives to the set [courses] *)
Definition row_numbers (r : list string * string) : gset string :=
  list_to_set (take 1 (filled r.1)).

(* the strings that a row gives to the set [prerequisites] *)
Definition row_prerequisites (r : list string * string) : gset string :=
  list_to_set (drop 2 (filled r.1))
  ∪ match kept_rest (row_text r) r.2 with
    | Some s => {[s]}
    | None => ∅
    end.

Definition all_numbers (rs : list (list string * string)) : gset string :=
  ⋃ (row_numbers <$> rs).

Definition all_prerequisites (rs : list (list string * string)) : gset string :=
  ⋃ (row_prerequisites <$> rs).

(* a row with a number and a title, each followed by a delimiter *)
Definition two_fields (r : list string * string) : bool :=
  2 <=? Z.of_nat (length (filled r.1)).

(* the text of a file, from its rows *)
Fixpoint file_text (rows : list string) : string :=
  match rows with
  | [] => ""
  | row :: rows' => row +:+ String ROW_DEL (file_text rows')
  end.

(** ** Ranges of a vector *)

(* [v'] comes from [v] by exchanges of elements at positions of
   [lowIndex .. highIndex] *)
Inductive within (lo hi : Z) : list Course → list Course → Prop :=
  | within_refl v : within lo hi v v
  | within_swap v (i j : nat) a b :
      lo <= Z.of_nat i <= hi → lo <= Z.of_nat j <= hi →
      v !! i = Some a → v !! j = Some b →
      within lo hi v (<[j := a]> (<[i := b]> v))
  | within_trans v1 v2 v3 :
      within lo hi v1 v2 → within lo hi v2 v3 → within lo hi v1 v3.

(* the elements at the positions of a range all satisfy [P] *)
Definition range_all (lo hi : Z) (P : Course → Prop) (v : list Course) : Prop :=
  ∀ (k : nat) c, lo <= Z.of_nat k <= hi → v !! k = Some c → P c.

(* the numbers do not decrease along a range *)
Definition range_sorted (lo hi : Z) (v : list Course) : Prop :=
  ∀ (i j : nat) a b,
    lo <= Z.of_nat i → (i ≤ j)%nat → Z.of_nat j <= hi →
    v !! i = Some a → v !! j = Some b → String.le (number a) (number b).

(** ** The example file *)

Definition example_file : string :=
  file_text ["CS101,Intro,CS100"; "CS100,Basics"].

(* the same rows, each field followed by the delimiter *)
Definition example_file_delimited : string :=
  file_text ["CS101,Intro,CS100,"; "CS100,Basics,"].

Definition CS101 : Course := mkCourse "CS101" "Intro" ["CS100"].
Definition CS100 : Course := mkCourse "CS100" "Basics" [].

(* a record with a number and no title, and the table of two slots after
   its insertion and the insertion of CS101, [sum] starting from 0 *)
Definition untitled : Course := mkCourse "CS100" "" [].

Definition untitled_table : HashTable :=
  {| m_nodes := [mkNode CS101 0 nullptr; mkNode untitled 1 nullptr];
     m_size := 2 |}.

(** * Properties *)

Lemma bind_Done {A B : Type} (a : A) (k : A → outcome B) : (Done a ≫= k) = k a.
Proof. reflexivity. Qed.

Lemma bind_Done_inv {A B : Type} (m : outcome A) (k : A → outcome B) (b : B) :
  (m ≫= k) = Done b → ∃ a, m = Done a ∧ k a = Done b.
Proof. destruct m as [a|f]; [eauto | discriminate]. Qed.

(** ** hash *)

Section hash_facts.
Variables (m_size : Z).

Lemma hash_loop_done length key i sum :
  m_size ≠ 0 → ∃ r, hash_loop m_size length key i sum = Done r.
Proof.
  intros Hm. revert i sum.
  induction key as [|c rest IH]; intros i sum; simpl; [eauto|].
  destruct (to_size_t i <? length); [|eauto].
  destruct (Z.eqb_spec m_size 0); [contradiction | apply IH].
Qed.

(* apart from the value it starts from, the result is a slot index *)
Lemma hash_in_range sum0 key :
  0 < m_size → ∃ k, hash sum0 m_size key = Done k ∧ 0 <= k < m_size.
Proof.
  intros Hm. unfold hash.
  destruct (hash_loop_done (size key) key 0 sum0) as [r ->]; [lia|].
  rewrite bind_Done. destruct (Z.eqb_spec m_size 0); [lia|].
  eexists; split; [reflexivity|]. apply Z.mod_pos_bound; lia.
Qed.
End hash_facts.

Lemma hash_size_one sum0 key : hash sum0 1 key = Done 0.
Proof.
  destruct (hash_in_range 1 sum0 key) as (k & -> & Hk); [lia|].
  f_equal; lia.
Qed.

(* a table without slots: every call of [hash] divides by zero *)
Lemma hash_size_zero sum0 key : hash sum0 0 key = Fault DivideByZero.
Proof.
  unfold hash. destruct key as [|c key]; [reflexivity|].
  simpl hash_loop.
  destruct (Z.ltb_spec (to_size_t 0) (size (String c key))) as [_|H];
    [reflexivity|].
  unfold size in H. simpl in H. change (to_size_t 0) with 0 in H. lia.
Qed.

(** C8. [hash] is meant to give one slot index per course number and table
    size.  Its accumulator [sum] is never initialised, so the index depends
    on the value [sum] starts from: for the key ["A"] and a table of two
    slots the call gives slot 1 when [sum] starts at 0 and slot 0 when it
    starts at 1.  For a table without slots there is no index at all: the
    call divides by zero. *)
Theorem hash_depends_on_initial_sum :
  hash 0 2 "A" = Done 1 ∧ hash 1 2 "A" = Done 0
  ∧ ∀ sum0 key, hash sum0 0 key = Fault DivideByZero.
Proof. split; [|split]; [reflexivity | reflexivity | apply hash_size_zero]. Qed.


(** ** Vectors *)

Lemma at_Done {A : Type} (v : list A) (i : Z) (a : A) :
  at_ v i = Done a ↔ 0 <= i ∧ v !! Z.to_nat i = Some a.
Proof.
  unfold at_. split.
  - destruct (Z.leb_spec 0 i), (Z.ltb_spec i (Z.of_nat (length v)));
      simpl; try discriminate.
    destruct (v !! Z.to_nat i); [|discriminate]. intros [= ->]. auto.
  - intros [Hi Hl]. pose proof (lookup_lt_Some _ _ _ Hl).
    destruct (Z.leb_spec 0 i), (Z.ltb_spec i (Z.of_nat (length v)));
      simpl; try lia.
    by rewrite Hl.
Qed.

Lemma at_in_range {A : Type} (v : list A) (i : Z) :
  0 <= i < Z.of_nat (length v) → ∃ a, at_ v i = Done a.
Proof.
  intros Hi. destruct (lookup_lt_is_Some_2 v (Z.to_nat i)) as [a Ha]; [lia|].
  exists a. apply at_Done. split; [lia | done].
Qed.

Lemma set_at_in_range {A : Type} (v : list A) (i : Z) (a : A) :
  0 <= i < Z.of_nat (length v) → set_at v i a = Done (<[Z.to_nat i := a]> v).
Proof.
  intros Hi. unfold set_at.
  destruct (Z.leb_spec 0 i), (Z.ltb_spec i (Z.of_nat (length v)));
    simpl; try lia; reflexivity.
Qed.

(** ** The table *)

Lemma HashTable_new_ok t_size :
  0 < t_size <= UINT_MAX → table_ok (HashTable_new t_size).
Proof.
  intros H. split; [done|]. simpl. rewrite length_replicate. lia.
Qed.

(* the slot that an operation works on *)
Lemma slot_of_key sum0 t course_number :
  table_ok t →
  ∃ k head, hash sum0 (m_size t) course_number = Done k
            ∧ 0 <= k < m_size t
            ∧ at_ (m_nodes t) k = Done head
            ∧ m_nodes t !! Z.to_nat k = Some head.
Proof.
  intros [Hm Hl].
  destruct (hash_in_range (m_size t) sum0 course_number) as (k & Hk & Hr); [lia|].
  destruct (at_in_range (m_nodes t) k) as [head Hh]; [lia|].
  exists k, head. repeat split; try done; try lia.
  by apply at_Done in Hh as [_ ?].
Qed.

Lemma slot_courses_empty head :
  key head = UINT_MAX → slot_courses head = [].
Proof. intros H. unfold slot_courses. by rewrite H. Qed.

Lemma slot_courses_used head :
  key head ≠ UINT_MAX →
  slot_courses head = course head :: chain_courses (next head).
Proof.
  intros H. unfold slot_courses.
  by destruct (Z.eqb_spec (key head) UINT_MAX).
Qed.

Lemma toVector_slot t k head :
  m_nodes t !! k = Some head →
  toVector t = flat_map slot_courses (take k (m_nodes t))
               ++ slot_courses head
               ++ flat_map slot_courses (drop (S k) (m_nodes t)).
Proof.
  intros Hk. unfold toVector.
  rewrite <- (take_drop_middle _ _ _ Hk) at 1.
  rewrite flat_map_app. simpl. reflexivity.
Qed.

Lemma toVector_set_slot t k head head' :
  m_nodes t !! k = Some head →
  toVector {| m_nodes := <[k := head']> (m_nodes t); m_size := m_size t |}
  = flat_map slot_courses (take k (m_nodes t))
    ++ slot_courses head'
    ++ flat_map slot_courses (drop (S k) (m_nodes t)).
Proof.
  intros Hk. pose proof (lookup_lt_Some _ _ _ Hk) as Hlt.
  erewrite toVector_slot; simpl.
  2: { apply list_lookup_insert_eq; done. }
  rewrite take_insert_ge, drop_insert_lt by lia. reflexivity.
Qed.

Lemma slot_in_toVector t k head c :
  m_nodes t !! k = Some head → c ∈ slot_courses head → c ∈ toVector t.
Proof.
  intros Hk Hc. rewrite (toVector_slot _ _ _ Hk).
  rewrite !elem_of_app. auto.
Qed.

Lemma chain_courses_link_last p n :
  chain_courses (link_last p n) = chain_courses p ++ chain_courses n.
Proof. induction p as [|c k p IH]; simpl; [done | by rewrite IH]. Qed.

(** ** insert *)

(* the record is stored, after the records that the table holds *)
Lemma insert_toVector sum0 t c :
  table_ok t →
  ∃ t', insert sum0 t c = Done t' ∧ table_ok t' ∧ m_size t' = m_size t
        ∧ toVector t' ≡ₚ toVector t ++ [c].
Proof.
  intros Hok.
  destruct (slot_of_key sum0 t (number c) Hok) as (k & head & Hh & Hk & Hat & Hl).
  destruct Hok as [Hm Hlen].
  unfold insert. rewrite Hh, bind_Done, Hat, bind_Done.
  destruct (Z.eqb_spec (key head) UINT_MAX) as [He|Hne];
    rewrite set_at_in_range by lia; rewrite bind_Done;
    eexists; (split; [reflexivity|]);
    (split; [split; simpl; [done | by rewrite length_insert]|]);
    (split; [done|]);
    rewrite (toVector_slot t _ _ Hl), (toVector_set_slot t _ _ _ Hl).
  - rewrite (slot_courses_empty head He), slot_courses_used by (simpl; lia).
    simpl. rewrite <- app_assoc.
    apply Permutation_app_head. apply (Permutation_app_comm [c]).
  - rewrite !slot_courses_used by done. simpl.
    rewrite chain_courses_link_last. simpl.
    rewrite <- !app_assoc. simpl. apply Permutation_app_head.
    apply Permutation_skip.
    rewrite <- app_assoc. apply Permutation_app_head.
    apply (Permutation_app_comm [c]).
Qed.

(** ** search *)

Lemma search_chain_absent course_number p :
  course_number ∉ number <$> (chain_courses p) →
  search_chain course_number p = None.
Proof.
  induction p as [|c k p IH]; simpl; [done|].
  intros Hn. rewrite ?fmap_cons, not_elem_of_cons in Hn. destruct Hn as [Hne Hn].
  destruct (String.eqb_spec (number c) course_number); [congruence | auto].
Qed.

Lemma search_chain_link_last course_number p c k :
  course_number ∉ number <$> (chain_courses p) →
  number c = course_number →
  search_chain course_number (link_last p (heap c k nullptr)) = Some c.
Proof.
  intros Hn Hc. induction p as [|c' k' p IH]; simpl.
  - destruct (String.eqb_spec (number c) course_number); [done | congruence].
  - simpl in Hn; rewrite ?fmap_cons, not_elem_of_cons in Hn.
    destruct Hn as [Hne Hn].
    destruct (String.eqb_spec (number c') course_number); [congruence | auto].
Qed.

(* a number that no stored record has: [search] returns the empty record *)
Lemma search_absent sum0 t course_number :
  table_ok t →
  course_number ∉ number <$> (toVector t) →
  search sum0 t course_number = Done Course_empty.
Proof.
  intros Hok Hn.
  destruct (slot_of_key sum0 t course_number Hok) as (k & head & Hh & Hk & Hat & Hl).
  unfold search. rewrite Hh, bind_Done, Hat, bind_Done.
  destruct (Z.eqb_spec (key head) UINT_MAX) as [He|Hne]; [done|].
  assert (Hslot : course_number ∉ number <$> (slot_courses head)).
  { intros Hin. apply Hn. apply list_elem_of_fmap in Hin as (c & -> & Hc).
    apply list_elem_of_fmap. exists c. split; [done|].
    eapply slot_in_toVector; eauto. }
  rewrite slot_courses_used in Hslot by done.
  rewrite ?fmap_cons, not_elem_of_cons in Hslot. destruct Hslot as [Hne' Hc].
  destruct (String.eqb_spec (number (course head)) course_number); [congruence|].
  by rewrite search_chain_absent.
Qed.

(* When [insert] and [search] start [hash] from the same value of [sum], a
   record with a new number is found after its insertion. *)
Lemma search_insert sum0 t c :
  table_ok t →
  number c ∉ number <$> (toVector t) →
  ∃ t', insert sum0 t c = Done t' ∧ search sum0 t' (number c) = Done c.
Proof.
  intros Hok Hn.
  destruct (slot_of_key sum0 t (number c) Hok) as (k & head & Hh & Hk & Hat & Hl).
  assert (Hslot : number c ∉ number <$> (slot_courses head)).
  { intros Hin. apply Hn. apply list_elem_of_fmap in Hin as (c' & -> & Hc).
    apply list_elem_of_fmap. exists c'. split; [done|].
    eapply slot_in_toVector; eauto. }
  destruct Hok as [Hm Hlen].
  unfold insert, search. rewrite Hh, bind_Done, Hat, bind_Done.
  destruct (Z.eqb_spec (key head) UINT_MAX) as [He|Hne];
    rewrite set_at_in_range by lia; rewrite bind_Done;
    eexists; (split; [reflexivity|]); simpl;
    rewrite Hh, bind_Done;
    (erewrite (proj2 (at_Done _ _ _));
       [|split; [lia | apply list_lookup_insert_eq; lia]]);
    rewrite bind_Done; simpl.
  - destruct (Z.eqb_spec k UINT_MAX); [lia|].
    by rewrite String.eqb_refl.
  - destruct (Z.eqb_spec (key head) UINT_MAX); [done|].
    rewrite slot_courses_used in Hslot by done.
    rewrite ?fmap_cons, not_elem_of_cons in Hslot.
    destruct Hslot as [Hne' Hc].
    destruct (String.eqb_spec (number (course head)) (number c)); [congruence|].
    unfold new_Node; simpl. by rewrite search_chain_link_last.
Qed.

Lemma toVector_new t_size : toVector (HashTable_new t_size) = [].
Proof.
  unfold toVector, HashTable_new. simpl.
  induction (Z.to_nat t_size) as [|n IH]; [done|]. simpl. by rewrite IH.
Qed.

(* whatever [hash] starts from, the table holds the records that were
   inserted, each as often as it was inserted *)
Lemma inserted_toVector t cs : inserted t cs → table_ok t ∧ toVector t ≡ₚ cs.
Proof.
  induction 1 as [t_size Hsz | t cs sum0 c t' _ [Hok Hperm] Hins].
  - split; [by apply HashTable_new_ok | by rewrite toVector_new].
  - destruct (insert_toVector sum0 t c Hok) as (t'' & Hins' & Hok' & _ & Hp).
    rewrite Hins in Hins'. injection Hins' as <-.
    split; [done|]. by rewrite Hp, Hperm.
Qed.

(** ** remove *)

Lemma remove_loop_absent course_number p :
  course_number ∉ number <$> chain_courses p →
  remove_loop course_number p = Done p.
Proof.
  induction p as [|c k p IH]; simpl; [done|].
  rewrite ?fmap_cons, not_elem_of_cons. intros [Hne Hn].
  destruct (String.eqb_spec (number c) course_number); [congruence|].
  by rewrite IH.
Qed.

(* a chain whose last node alone has the number: the scan ends on the null
   pointer *)
Lemma remove_loop_last course_number p c k :
  course_number ∉ number <$> chain_courses p →
  number c = course_number →
  remove_loop course_number (link_last p (heap c k nullptr))
  = Fault NullDereference.
Proof.
  intros Hn Hc. induction p as [|c' k' p IH]; simpl.
  - by destruct (String.eqb_spec (number c) course_number).
  - simpl in Hn. rewrite ?fmap_cons, not_elem_of_cons in Hn.
    destruct Hn as [Hne Hn].
    destruct (String.eqb_spec (number c') course_number); [congruence|].
    by rewrite IH.
Qed.

(* the same, for the call of [remove]: the slot of the number is in use,
   its head has another number, and of its chain the last node alone has
   the number *)
Lemma remove_last_chain_node sum0 t course_number k head p c k' :
  hash sum0 (m_size t) course_number = Done k →
  at_ (m_nodes t) k = Done head →
  key head ≠ UINT_MAX →
  number (course head) ≠ course_number →
  next head = link_last p (heap c k' nullptr) →
  course_number ∉ number <$> chain_courses p →
  number c = course_number →
  remove sum0 t course_number = Fault NullDereference.
Proof.
  intros Hh Hat Hkey Hhead Hnext Hp Hc.
  unfold remove. rewrite Hh, bind_Done, Hat, bind_Done.
  destruct (Z.eqb_spec (key head) UINT_MAX); [done|].
  destruct (String.eqb_spec (number (course head)) course_number); [done|].
  by rewrite Hnext, remove_loop_last.
Qed.

(* numbers that are all different: when the scan returns, the number is in
   the chain no more *)
Lemma remove_loop_unique course_number p p' :
  NoDup (number <$> chain_courses p) →
  remove_loop course_number p = Done p' →
  course_number ∉ number <$> chain_courses p'.
Proof.
  revert p'. induction p as [|c k p IH]; intros p' Hnd; simpl.
  - intros [= <-]. apply not_elem_of_nil.
  - simpl in Hnd. rewrite ?fmap_cons in Hnd.
    apply NoDup_cons in Hnd as [Hc Hnd].
    destruct (String.eqb_spec (number c) course_number) as [He|Hne].
    + subst course_number. destruct p as [|c' k' p]; [done|].
      simpl in Hc. rewrite ?fmap_cons, not_elem_of_cons in Hc.
      destruct Hc as [Hne Hc].
      rewrite remove_loop_absent, bind_Done by done.
      intros [= <-]. simpl. rewrite ?fmap_cons, not_elem_of_cons. done.
    + intros (r & Hr & [= <-])%bind_Done_inv. simpl.
      rewrite ?fmap_cons, not_elem_of_cons. split; [done | by apply IH].
Qed.

(* the removal of a number that no record has changes nothing *)
Lemma remove_absent sum0 t course_number :
  table_ok t →
  course_number ∉ number <$> toVector t →
  ∃ t', remove sum0 t course_number = Done t' ∧ m_nodes t' = m_nodes t
        ∧ m_size t' = m_size t.
Proof.
  intros Hok Hn.
  destruct (slot_of_key sum0 t course_number Hok) as (k & head & Hh & Hk & Hat & Hl).
  unfold remove. rewrite Hh, bind_Done, Hat, bind_Done.
  destruct (Z.eqb_spec (key head) UINT_MAX) as [He|Hne]; [by exists t|].
  assert (Hslot : course_number ∉ number <$> slot_courses head).
  { intros Hin. apply Hn. apply list_elem_of_fmap in Hin as (c & -> & Hc).
    apply list_elem_of_fmap. exists c. split; [done|].
    eapply slot_in_toVector; eauto. }
  rewrite slot_courses_used in Hslot by done.
  rewrite ?fmap_cons, not_elem_of_cons in Hslot. destruct Hslot as [Hne' Hc].
  destruct (String.eqb_spec (number (course head)) course_number); [congruence|].
  rewrite remove_loop_absent, bind_Done by done.
  destruct Hok as [Hm Hlen].
  rewrite set_at_in_range, bind_Done by lia.
  eexists. split; [reflexivity|]. simpl. split; [|done].
  apply list_insert_id. by destruct head.
Qed.

(* When [remove] returns, in a slot whose numbers are all different, and
   [search] starts [hash] from the same value of [sum], the number is not
   found any more. *)
Lemma search_after_remove sum0 t t' course_number :
  table_ok t →
  NoDup (number <$> toVector t) →
  remove sum0 t course_number = Done t' →
  search sum0 t' course_number = Done Course_empty.
Proof.
  intros Hok Hnd.
  destruct (slot_of_key sum0 t course_number Hok) as (k & head & Hh & Hk & Hat & Hl).
  destruct Hok as [Hm Hlen].
  assert (Hnd' : NoDup (number <$> slot_courses head)).
  { rewrite (toVector_slot t _ _ Hl), !fmap_app in Hnd.
    apply NoDup_app in Hnd as (_ & _ & Hnd).
    by apply NoDup_app in Hnd as (Hnd & _ & _). }
  assert (Hget : ∀ n, at_ (<[Z.to_nat k := n]> (m_nodes t)) k = Done n).
  { intros n. apply at_Done. split; [lia|]. apply list_lookup_insert_eq. lia. }
  unfold remove. rewrite Hh, bind_Done, Hat, bind_Done.
  destruct (Z.eqb_spec (key head) UINT_MAX) as [He|Hne].
  { intros [= <-]. unfold search. rewrite Hh, bind_Done, Hat, bind_Done.
    by destruct (Z.eqb_spec (key head) UINT_MAX). }
  rewrite slot_courses_used in Hnd' by done. rewrite fmap_cons in Hnd'.
  apply NoDup_cons in Hnd' as [Hhead Hchain].
  destruct (String.eqb_spec (number (course head)) course_number) as [He|Hne'].
  - subst course_number. destruct (next head) as [|c k' p] eqn:Hnext;
      rewrite set_at_in_range, bind_Done by lia; intros [= <-];
      unfold search; simpl; rewrite Hh, bind_Done, Hget, bind_Done; simpl.
    + done.
    + simpl in Hhead. rewrite ?fmap_cons, not_elem_of_cons in Hhead.
      destruct Hhead as [Hne' Hp].
      destruct (Z.eqb_spec k' UINT_MAX); [done|].
      destruct (String.eqb_spec (number c) (number (course head))); [congruence|].
      by rewrite search_chain_absent.
  - intros (p & Hp & Hset)%bind_Done_inv.
    rewrite set_at_in_range, bind_Done in Hset by lia. injection Hset as <-.
    unfold search. simpl. rewrite Hh, bind_Done, Hget, bind_Done. simpl.
    destruct (Z.eqb_spec (key head) UINT_MAX); [done|].
    destruct (String.eqb_spec (number (course head)) course_number); [congruence|].
    rewrite search_chain_absent; [done|].
    by eapply remove_loop_unique.
Qed.


(* In a table of one slot every key is hashed to slot 0, whatever [sum]
   starts from; such tables give runs that do not depend on it. *)
Ltac run_one_slot :=
  unfold insert, remove, search;
  repeat (cbv -[hash]; rewrite ?hash_size_one); try reflexivity.

(** C10. [remove] is not safe on every reachable table: when the record to
    remove is the last node of a chain, the scan loop unlinks it, moves
    [cur_node] to the null pointer that follows, and tests
    [cur_node->next].  Two inserts into a table of one slot and the removal
    of the second record end in that null dereference. *)
Theorem remove_last_chain_node_null_dereference (s1 s2 s3 : Z) :
  (t ← insert s1 (HashTable_new 1) (mkCourse "A" "Algebra" []);
   t ← insert s2 t (mkCourse "B" "Biology" []);
   remove s3 t "B") = Fault NullDereference.
Proof. run_one_slot. Qed.

(** C7. [remove] does not stop at the first match of a chain: the scan loop
    goes on after it has unlinked a node.  With the records A, B, C, B, D in
    one slot, [remove "B"] unlinks both records B; the table is left with
    A, C, D. *)
Theorem remove_unlinks_later_duplicate (s1 s2 s3 s4 s5 s6 : Z) :
  (t ← insert s1 (HashTable_new 1) (mkCourse "A" "a" []);
   t ← insert s2 t (mkCourse "B" "first" []);
   t ← insert s3 t (mkCourse "C" "c" []);
   t ← insert s4 t (mkCourse "B" "second" []);
   t ← insert s5 t (mkCourse "D" "d" []);
   t ← remove s6 t "B";
   Done (toVector t))
  = Done [mkCourse "A" "a" []; mkCourse "C" "c" []; mkCourse "D" "d" []].
Proof. run_one_slot. Qed.

(** C5. A record that was inserted once and is then removed is not always
    reported as absent by a later [search]: when the record is the last node
    of its chain, [remove] itself ends in a null dereference and no search
    follows. *)
Theorem search_after_remove_of_last_node (s1 s2 s3 s4 s5 : Z) :
  (t ← insert s1 (HashTable_new 1) (mkCourse "A" "Algebra" []);
   t ← insert s2 t (mkCourse "B" "Biology" []);
   t ← insert s3 t (mkCourse "C" "Chemistry" []);
   t ← remove s4 t "C";
   search s5 t "C") = Fault NullDereference.
Proof. run_one_slot. Qed.

(** C4. A record that was just inserted is not always found: [insert] and
    [search] each call [hash], and [hash] reads its accumulator before it is
    set.  In a table of two slots, record A is stored in slot 1 when [sum]
    starts at 0, and looked for in slot 0 when [sum] starts at 1; [search]
    returns the empty record.  In the table without slots that [main] builds
    for a file without rows, [insert] itself divides by zero. *)
Theorem search_misses_inserted_record :
  (t ← insert 0 (HashTable_new 2) (mkCourse "A" "Algebra" []);
   search 1 t "A") = Done Course_empty
  ∧ ∀ sum0, insert sum0 (HashTable_new 0) (mkCourse "A" "Algebra" [])
            = Fault DivideByZero.
Proof.
  split; [reflexivity|]. intros sum0. unfold insert. simpl m_size.
  by rewrite hash_size_zero.
Qed.


(** ** Strings *)

Lemma size_nonneg s : 0 <= size s.
Proof. unfold size. lia. Qed.

Lemma size_String a s : size (String a s) = 1 + size s.
Proof. unfold size. simpl. lia. Qed.

Lemma app_String a s1 s2 : String a s1 +:+ s2 = String a (s1 +:+ s2).
Proof. reflexivity. Qed.

Lemma size_app s1 s2 : size (s1 +:+ s2) = size s1 + size s2.
Proof.
  induction s1 as [|a s1 IH]; [done|].
  rewrite app_String, !size_String. lia.
Qed.

Lemma size_zero s : size s = 0 → s = "".
Proof. destruct s; [done|]. unfold size. simpl. lia. Qed.

Lemma app_assoc_string s1 s2 s3 : (s1 +:+ s2) +:+ s3 = s1 +:+ (s2 +:+ s3).
Proof.
  induction s1 as [|a s1 IH]; [done|].
  rewrite !app_String. by rewrite IH.
Qed.

Lemma find_aux_skip pre s c pos :
  find_aux (pre +:+ s) c (String.length pre) pos = find_aux s c 0 (pos + size pre).
Proof.
  revert pos. induction pre as [|a pre IH]; intros pos.
  - simpl. unfold size. simpl. f_equal. lia.
  - rewrite app_String. simpl. rewrite IH, size_String. f_equal. lia.
Qed.

Lemma find_aux_found f c post pos :
  contains c f = false →
  find_aux (f +:+ String c post) c 0 pos = pos + size f.
Proof.
  revert pos. induction f as [|a f IH]; intros pos Hf.
  - simpl. rewrite Ascii.eqb_refl. unfold size. simpl. lia.
  - simpl in Hf. apply orb_false_iff in Hf as [Ha Hf].
    rewrite app_String. simpl. rewrite Ha, IH, size_String by done. lia.
Qed.

Lemma find_aux_absent s c pos :
  contains c s = false → find_aux s c 0 pos = npos.
Proof.
  revert pos. induction s as [|a s IH]; intros pos Hs; [done|].
  simpl in Hs. apply orb_false_iff in Hs as [Ha Hs].
  simpl. rewrite Ha. auto.
Qed.

(* the next delimiter, from the start of a field *)
Lemma find_field pre f c post :
  contains c f = false →
  find (pre +:+ f +:+ String c post) c (size pre) = size pre + size f.
Proof.
  intros Hf. unfold find.
  rewrite !size_app, size_String.
  pose proof (size_nonneg f). pose proof (size_nonneg post).
  destruct (Z.leb_spec (size pre + (size f + (1 + size post))) (size pre)); [lia|].
  unfold size at 1. rewrite Nat2Z.id, find_aux_skip, find_aux_found by done. lia.
Qed.

(* no delimiter is left after the last field *)
Lemma find_rest pre rest c :
  contains c rest = false → find (pre +:+ rest) c (size pre) = npos.
Proof.
  intros Hr. unfold find.
  destruct (Z.leb_spec (size (pre +:+ rest)) (size pre)); [done|].
  unfold size at 1. by rewrite Nat2Z.id, find_aux_skip, find_aux_absent.
Qed.

Lemma substring_skip pre s n :
  substring (String.length pre) n (pre +:+ s) = substring 0 n s.
Proof. induction pre as [|a pre IH]; [done|]. rewrite app_String. simpl. done. Qed.

Lemma substring_prefix f post :
  substring 0 (String.length f) (f +:+ post) = f.
Proof.
  induction f as [|a f IH].
  - by destruct post.
  - rewrite app_String. simpl. by rewrite IH.
Qed.

Lemma substring_drop_last s :
  substring 0 (String.length s - 1) s = drop_last s.
Proof.
  induction s as [|a s IH]; [done|].
  destruct s as [|b s]; [done|].
  simpl in *. rewrite Nat.sub_0_r in IH. by rewrite IH.
Qed.

(* the field between two delimiters *)
Lemma substr_field pre f post :
  substr (pre +:+ f +:+ post) (size pre) (size f) = Done f.
Proof.
  unfold substr. rewrite !size_app.
  pose proof (size_nonneg f). pose proof (size_nonneg post).
  destruct (Z.ltb_spec (size pre + (size f + size post)) (size pre)); [lia|].
  rewrite Z.min_l by lia. unfold size at 1 2. rewrite !Nat2Z.id.
  by rewrite substring_skip, substring_prefix.
Qed.

(* what is left after the last delimiter, less one character *)
Lemma substr_rest pre rest :
  substr (pre +:+ rest) (size pre) (size rest - 1) = Done (drop_last rest).
Proof.
  unfold substr. rewrite !size_app.
  pose proof (size_nonneg rest).
  destruct (Z.ltb_spec (size pre + size rest) (size pre)); [lia|].
  rewrite Z.min_l by lia. unfold size at 1. rewrite Nat2Z.id, substring_skip.
  replace (Z.to_nat (size rest - 1)) with (String.length rest - 1)%nat
    by (unfold size; lia).
  by rewrite substring_drop_last.
Qed.

Lemma to_int_small x : INT_MIN <= x <= INT_MAX → to_int x = x.
Proof.
  unfold INT_MIN, INT_MAX, to_int. intros H.
  rewrite Z.mod_small by lia. lia.
Qed.

Lemma to_size_t_small x : 0 <= x <= SIZE_MAX → to_size_t x = x.
Proof. unfold SIZE_MAX, to_size_t. intros H. apply Z.mod_small. lia. Qed.


(** ** Rows *)

Lemma length_delimited fields :
  Z.of_nat (length fields) <= size (delimited fields).
Proof.
  induction fields as [|f fields IH]; simpl; [done|].
  rewrite size_app, size_String. pose proof (size_nonneg f). lia.
Qed.

Section field_loop_facts.
Context {St : Type} (on_field : Z → string → St → St).

Lemma field_loop_delimited fuel pre fields rest field_count st :
  Forall (λ f, contains COL_DEL f = false) fields →
  contains COL_DEL rest = false →
  size (pre +:+ delimited fields +:+ rest) <= INT_MAX →
  0 <= field_count <= size pre →
  (length fields < fuel)%nat →
  field_loop on_field fuel (pre +:+ delimited fields +:+ rest) (size pre)
    field_count st
  = Done (size pre + size (delimited fields),
          (apply_fields on_field field_count fields st).1,
          (apply_fields on_field field_count fields st).2).
Proof.
  intros Hf Hrest. revert fuel pre field_count st.
  induction Hf as [|f fields Hc Hf IH]; intros fuel pre field_count st Hsz Hn Hfuel;
    (destruct fuel as [|fuel]; [simpl in Hfuel; lia|]);
    pose proof (size_nonneg pre) as Hpre; unfold INT_MAX in *.
  - simpl delimited in *. simpl field_loop.
    change ("" +:+ rest) with rest in *.
    pose proof (size_nonneg rest). rewrite size_app in Hsz.
    rewrite (to_size_t_small (size pre)) by (unfold SIZE_MAX; lia).
    rewrite find_rest by done.
    change (to_size_t (to_int npos) =? npos) with true. cbv iota.
    simpl. by rewrite Z.add_0_r.
  - simpl delimited in *.
    rewrite app_assoc_string, app_String in *.
    assert (Hsize : size (pre +:+ f +:+ String COL_DEL (delimited fields +:+ rest))
                    = size pre + size f + 1 + size (delimited fields) + size rest).
    { rewrite !size_app, size_String, size_app. lia. }
    pose proof (size_nonneg f). pose proof (size_nonneg rest).
    pose proof (size_nonneg (delimited fields)).
    simpl field_loop.
    rewrite (to_size_t_small (size pre)) by (unfold SIZE_MAX; lia).
    rewrite find_field by done.
    rewrite (to_int_small (size pre + size f)) by (unfold INT_MIN, INT_MAX; lia).
    rewrite (to_size_t_small (size pre + size f)) by (unfold SIZE_MAX; lia).
    destruct (Z.eqb_spec (size pre + size f) npos) as [He|_];
      [unfold npos, SIZE_MAX in He; lia|].
    replace (size pre + size f - size pre) with (size f) by lia.
    rewrite (to_int_small (size f)) by (unfold INT_MIN, INT_MAX; lia).
    rewrite (to_size_t_small (size f)) by (unfold SIZE_MAX; lia).
    rewrite substr_field, bind_Done.
    rewrite (to_int_small (size pre + size f + 1))
      by (unfold INT_MIN, INT_MAX; lia).
    assert (Hpre' : size pre + size f + 1 = size (pre +:+ f +:+ String COL_DEL "")).
    { rewrite !size_app, size_String. change (size "") with 0. lia. }
    assert (Hrow : pre +:+ f +:+ String COL_DEL (delimited fields +:+ rest)
                   = (pre +:+ f +:+ String COL_DEL "") +:+ delimited fields +:+ rest).
    { rewrite !app_assoc_string. by rewrite app_String. }
    rewrite size_app, size_String.
    destruct (Z.eqb_spec (size f) 0) as [Hz|Hnz].
    + apply size_zero in Hz as ->.
      simpl apply_fields. rewrite Hpre', Hrow.
      rewrite IH; [f_equal; f_equal; f_equal; lia | | | simpl in Hfuel; lia].
      * rewrite <- Hrow, Hsize. lia.
      * rewrite <- Hpre'. lia.
    + assert (Hne : String.eqb f "" = false).
      { apply String.eqb_neq. intros ->. by apply Hnz. }
      simpl apply_fields. rewrite Hne.
      rewrite (to_int_small (field_count + 1)) by (unfold INT_MIN, INT_MAX; lia).
      rewrite Hpre', Hrow.
      rewrite IH; [f_equal; f_equal; f_equal; lia | | | simpl in Hfuel; lia].
      * rewrite <- Hrow, Hsize. lia.
      * rewrite <- Hpre'. lia.
Qed.

(* the loop on a whole row *)
Lemma field_loop_row r st :
  row_wf r →
  field_loop on_field (S (String.length (row_text r))) (row_text r) 0 0 st
  = Done (size (delimited r.1),
          (apply_fields on_field 0 r.1 st).1,
          (apply_fields on_field 0 r.1 st).2).
Proof.
  intros (Hf & Hr & Hsz). unfold row_text in *.
  pose proof (field_loop_delimited (S (String.length (delimited r.1 +:+ r.2)))
                "" r.1 r.2 0 st Hf Hr) as H.
  change ("" +:+ ?x) with x in H. change (size "") with 0 in H.
  rewrite H; [done | done | lia |].
  pose proof (length_delimited r.1). pose proof (size_nonneg r.2).
  assert (size (delimited r.1 +:+ r.2)
          = Z.of_nat (String.length (delimited r.1 +:+ r.2))) by done.
  rewrite size_app in *. lia.
Qed.
End field_loop_facts.

Lemma trailing_rest pre rest :
  size (pre +:+ rest) <= INT_MAX →
  trailing (pre +:+ rest) (size pre) = Done (kept_rest (pre +:+ rest) rest).
Proof.
  intros Hsz. unfold trailing, kept_rest. unfold INT_MAX in Hsz.
  pose proof (size_nonneg pre). pose proof (size_nonneg rest).
  rewrite size_app in *.
  rewrite (to_size_t_small (size pre)) by (unfold SIZE_MAX; lia).
  destruct (Z.eqb_spec (size pre + size rest) 0) as [Hz|Hnz].
  - assert (pre = "") as -> by (apply size_zero; lia).
    assert (rest = "") as -> by (apply size_zero; lia).
    reflexivity.
  - rewrite (to_size_t_small (size pre + size rest - 1)) by (unfold SIZE_MAX; lia).
    destruct (Z.ltb_spec (size pre) (size pre + size rest - 1)),
             (Z.leb_spec 2 (size rest)); try lia; [|done].
    rewrite (to_size_t_small (size pre + size rest - size pre - 1))
      by (unfold SIZE_MAX; lia).
    replace (size pre + size rest - size pre - 1) with (size rest - 1) by lia.
    by rewrite substr_rest.
Qed.


(** ** loadFromCSV: one row *)

Lemma filled_cons_empty fields : filled ("" :: fields) = filled fields.
Proof. unfold filled. by rewrite filter_cons_False by (intros H; by apply H). Qed.

Lemma filled_cons f fields : f ≠ "" → filled (f :: fields) = f :: filled fields.
Proof. intros H. unfold filled. by rewrite filter_cons_True. Qed.

Lemma load_field_next done f :
  load_field (Z.of_nat (length done)) f (course_of done) = course_of (done ++ [f]).
Proof.
  destruct done as [|a [|b l]]; try reflexivity.
  unfold load_field.
  destruct (Z.eqb_spec (Z.of_nat (length (a :: b :: l))) 0); [simpl in *; lia|].
  destruct (Z.eqb_spec (Z.of_nat (length (a :: b :: l))) 1); [simpl in *; lia|].
  reflexivity.
Qed.

Lemma apply_fields_load done fields :
  apply_fields load_field (Z.of_nat (length done)) fields (course_of done)
  = (Z.of_nat (length (done ++ filled fields)), course_of (done ++ filled fields)).
Proof.
  revert done. induction fields as [|f fields IH]; intros done.
  - simpl. unfold filled. simpl. by rewrite app_nil_r.
  - simpl. destruct (String.eqb_spec f "") as [->|Hne].
    + by rewrite filled_cons_empty.
    + rewrite filled_cons by done. rewrite load_field_next.
      replace (Z.of_nat (length done) + 1) with (Z.of_nat (length (done ++ [f])))
        by (rewrite length_app; simpl; lia).
      rewrite IH. by rewrite <- app_assoc.
Qed.

Lemma split_row_text row : row_text (split_row row) = row.
Proof.
  unfold row_text. induction row as [|a row IH]; [done|].
  simpl. destruct (split_row row) as [fields rest]. simpl in IH.
  destruct (Ascii.eqb_spec a COL_DEL) as [->|Hne]; simpl.
  - change ("" +:+ ?x) with x. rewrite app_String. by rewrite IH.
  - destruct fields as [|f fields]; simpl in *.
    + change ("" +:+ ?x) with x in *. by rewrite IH.
    + rewrite !app_String. by rewrite IH.
Qed.

Lemma split_row_wf row : size row <= INT_MAX → row_wf (split_row row).
Proof.
  intros Hsz. unfold row_wf. rewrite split_row_text. split_and!; [| |done].
  all: clear Hsz; induction row as [|a row IH]; [by (constructor || done)|];
    simpl; destruct (split_row row) as [fields rest]; simpl in *;
    destruct (Ascii.eqb_spec a COL_DEL) as [->|Hne]; simpl; auto;
    destruct fields as [|f fields]; simpl; auto.
  - inversion IH; subst. constructor; [|done]. simpl.
    apply orb_false_iff. split; [by apply Ascii.eqb_neq | done].
  - apply orb_false_iff. split; [by apply Ascii.eqb_neq | done].
Qed.

(* the record that a row gives, from its fields and its rest *)
Lemma read_row_text (r : list string * string) :
  row_wf r →
  read_row (row_text r)
  = Done {| number := nth 0 (filled r.1) "";
            title := nth 1 (filled r.1) "";
            prerequisites :=
              drop 2 (filled r.1)
              ++ match kept_rest (row_text r) r.2 with
                 | Some s => [c_str s]
                 | None => []
                 end |}.
Proof.
  intros Hwf. unfold read_row.
  rewrite (field_loop_row load_field r Course_empty Hwf), bind_Done.
  pose proof (apply_fields_load [] r.1) as Hap.
  change (Z.of_nat (length [])) with 0 in Hap.
  change (course_of []) with Course_empty in Hap. rewrite Hap. simpl.
  destruct Hwf as (_ & _ & Hsz). unfold row_text in *.
  pose proof (trailing_rest (delimited r.1) r.2 Hsz) as Ht.
  rewrite Ht, bind_Done.
  destruct (kept_rest _ _); simpl; [done|]. by rewrite app_nil_r.
Qed.

(* the same for a row as it is read *)
Corollary read_row_split row :
  size row <= INT_MAX →
  read_row row
  = Done {| number := nth 0 (filled (split_row row).1) "";
            title := nth 1 (filled (split_row row).1) "";
            prerequisites :=
              drop 2 (filled (split_row row).1)
              ++ match kept_rest row (split_row row).2 with
                 | Some s => [c_str s]
                 | None => []
                 end |}.
Proof.
  intros Hsz. pose proof (read_row_text _ (split_row_wf row Hsz)) as H.
  by rewrite split_row_text in H.
Qed.

(** C2.  The text after the last delimiter of a row is meant to be read as
    a field: the comment at that place says "add it to prerequisites", and
    the rows are described as number,title,prerequisite 1,...  The code
    takes [row.length() - start - 1] characters of it, one too few, and only
    under [start < row.length() - 1].  So the last prerequisite of
    "CS101,Intro,CS100" loses its last character, while the same row with
    a delimiter after it is read in full; the prerequisite of "A,B,C" is
    lost; the title of "CS100,Basics" is not read as the title, it becomes a
    prerequisite one character short; and the empty row, on which
    [row.length() - 1] wraps around, gets one empty prerequisite. *)
Theorem read_row_cuts_final_field :
  read_row "CS101,Intro,CS100" = Done (mkCourse "CS101" "Intro" ["CS10"])
  ∧ read_row "CS101,Intro,CS100," = Done (mkCourse "CS101" "Intro" ["CS100"])
  ∧ read_row "A,B,C" = Done (mkCourse "A" "B" [])
  ∧ read_row "CS100,Basics" = Done (mkCourse "CS100" "" ["Basic"])
  ∧ read_row "" = Done (mkCourse "" "" [""]).
Proof. repeat split; reflexivity. Qed.


(** ** ValidateFile *)

Lemma getlines_file_text rows :
  Forall (λ row, contains ROW_DEL row = false) rows →
  getlines (file_text rows) = rows.
Proof.
  induction 1 as [|row rows Hrow _ IH]; [done|].
  simpl file_text. induction row as [|a row IHrow].
  - change ("" +:+ ?x) with x. simpl. by rewrite IH.
  - simpl in Hrow. apply orb_false_iff in Hrow as [Ha Hrow].
    rewrite app_String. simpl. rewrite Ha, IHrow by done. done.
Qed.

Lemma apply_fields_validate_2 field_count fields cs ps :
  2 <= field_count →
  apply_fields validate_field field_count fields (cs, ps)
  = (field_count + Z.of_nat (length (filled fields)),
     (cs, list_to_set (filled fields) ∪ ps)).
Proof.
  revert field_count ps. induction fields as [|f fields IH]; intros n ps Hn.
  - simpl. f_equal; [lia|]. f_equal. set_solver.
  - simpl. destruct (String.eqb_spec f "") as [->|Hne].
    + rewrite filled_cons_empty. by apply IH.
    + rewrite filled_cons by done. unfold validate_field at 2.
      destruct (Z.eqb_spec n 0); [lia|]. destruct (Z.eqb_spec n 1); [lia|].
      simpl. rewrite IH by lia. f_equal; [lia|]. f_equal. set_solver.
Qed.

Lemma apply_fields_validate_1 fields cs ps :
  apply_fields validate_field 1 fields (cs, ps)
  = (1 + Z.of_nat (length (filled fields)),
     (cs, list_to_set (drop 1 (filled fields)) ∪ ps)).
Proof.
  revert ps. induction fields as [|f fields IH]; intros ps.
  - simpl. f_equal. f_equal. set_solver.
  - simpl. destruct (String.eqb_spec f "") as [->|Hne].
    + rewrite filled_cons_empty. by apply IH.
    + rewrite filled_cons by done. unfold validate_field at 2. simpl.
      rewrite apply_fields_validate_2 by lia. f_equal; lia.
Qed.

Lemma apply_fields_validate fields cs ps :
  apply_fields validate_field 0 fields (cs, ps)
  = (Z.of_nat (length (filled fields)),
     (list_to_set (take 1 (filled fields)) ∪ cs,
      list_to_set (drop 2 (filled fields)) ∪ ps)).
Proof.
  revert ps. induction fields as [|f fields IH]; intros ps.
  - simpl. f_equal. f_equal; set_solver.
  - simpl. destruct (String.eqb_spec f "") as [->|Hne].
    + rewrite filled_cons_empty. by apply IH.
    + rewrite filled_cons by done. unfold validate_field at 2. simpl.
      rewrite apply_fields_validate_1. f_equal; [lia|]. f_equal. set_solver.
Qed.

Lemma forallb_subseteq (cs ps : gset string) :
  forallb (λ p, bool_decide (p ∈ cs)) (elements ps) = bool_decide (ps ⊆ cs).
Proof.
  destruct (bool_decide_reflect (ps ⊆ cs)) as [Hs|Hs].
  - apply forallb_forall. intros p Hp. apply bool_decide_eq_true.
    apply Hs. apply elem_of_elements. by apply list_elem_of_In.
  - apply not_true_is_false. intros Hf. apply Hs. intros p Hp.
    rewrite forallb_forall in Hf.
    specialize (Hf p). rewrite bool_decide_eq_true in Hf. apply Hf.
    apply list_elem_of_In. by apply elem_of_elements.
Qed.

Lemma validate_rows_cons row rows sets row_count :
  validate_rows (row :: rows) sets row_count
  = '(start, cur_field, sets) ←
       field_loop validate_field (S (String.length row)) row 0 0 sets;
    rest ← trailing row start;
    let sets := match rest with
                | Some s => (sets.1, {[s]} ∪ sets.2)
                | None => sets
                end in
    if cur_field <? 2 then Done (-1)
    else validate_rows rows sets (to_int (row_count + 1)).
Proof. reflexivity. Qed.

(* [ValidateFile] on rows that hold no row delimiter: the count of the rows
   when each has two filled fields before its last delimiter and every
   prerequisite is a course number, -1 otherwise *)
Lemma validate_rows_spec rs cs ps row_count :
  Forall row_wf rs →
  0 <= row_count →
  row_count + Z.of_nat (length rs) <= INT_MAX →
  validate_rows (row_text <$> rs) (cs, ps) row_count
  = Done (if forallb two_fields rs
             && bool_decide (all_prerequisites rs ∪ ps ⊆ all_numbers rs ∪ cs)
          then row_count + Z.of_nat (length rs)
          else -1).
Proof.
  intros Hwf. revert cs ps row_count.
  induction Hwf as [|r rs Hr Hwf IH]; intros cs ps row_count H0 Hmax.
  - simpl validate_rows. rewrite forallb_subseteq. simpl forallb.
    unfold all_prerequisites, all_numbers. simpl.
    rewrite !(left_id_L ∅ (∪)). change (Z.of_nat 0) with 0.
    rewrite Z.add_0_r. by destruct (bool_decide _).
  - rewrite fmap_cons, validate_rows_cons.
    rewrite (field_loop_row validate_field r (cs, ps) Hr), bind_Done.
    rewrite apply_fields_validate. cbn [fst snd].
    destruct Hr as (_ & _ & Hsz).
    pose proof (trailing_rest (delimited r.1) r.2 Hsz) as Ht.
    fold (row_text r) in Ht. rewrite Ht, bind_Done.
    simpl forallb. unfold two_fields at 1.
    destruct (Z.ltb_spec (Z.of_nat (length (filled r.1))) 2),
             (Z.leb_spec 2 (Z.of_nat (length (filled r.1)))); try lia; [done|].
    simpl length in Hmax.
    rewrite (to_int_small (row_count + 1)) by (unfold INT_MIN, INT_MAX in *; lia).
    assert (Hsets : ∀ X : gset string * gset string,
      X = (list_to_set (take 1 (filled r.1)) ∪ cs,
           row_prerequisites r ∪ ps) →
      validate_rows (row_text <$> rs) X (row_count + 1)
      = Done (if forallb two_fields rs
                 && bool_decide (all_prerequisites (r :: rs) ∪ ps
                                 ⊆ all_numbers (r :: rs) ∪ cs)
              then row_count + Z.of_nat (length (r :: rs)) else -1)).
    { intros X ->. rewrite IH by lia.
      unfold all_prerequisites, all_numbers. rewrite !fmap_cons. simpl union_list.
      fold (row_numbers r).
      replace (row_prerequisites r ∪ ⋃ (row_prerequisites <$> rs) ∪ ps)
        with (⋃ (row_prerequisites <$> rs) ∪ (row_prerequisites r ∪ ps))
        by set_solver.
      replace (row_numbers r ∪ ⋃ (row_numbers <$> rs) ∪ cs)
        with (⋃ (row_numbers <$> rs) ∪ (row_numbers r ∪ cs))
        by set_solver.
      f_equal. destruct (_ && _); [|done]. simpl length. lia. }
    simpl andb. apply Hsets. unfold row_prerequisites.
    destruct (kept_rest (row_text r) r.2); simpl; f_equal; set_solver.
Qed.

(* [ValidateFile] on a file, from the rows that [getline] reads in it *)
Lemma ValidateFile_spec text rs :
  getlines text = row_text <$> rs →
  Forall row_wf rs →
  Z.of_nat (length rs) <= INT_MAX →
  ValidateFile (Some text)
  = Done (if forallb two_fields rs
             && bool_decide (all_prerequisites rs ⊆ all_numbers rs)
          then Z.of_nat (length rs)
          else -1).
Proof.
  intros Hrows Hwf Hlen. unfold ValidateFile, file_rows.
  rewrite Hrows, validate_rows_spec by (done || lia).
  by rewrite !(right_id_L ∅ (∪)).
Qed.

(* every file is read as such rows *)
Lemma getlines_split text :
  getlines text = row_text <$> (split_row <$> getlines text).
Proof.
  induction (getlines text) as [|row rows IH]; [done|].
  rewrite !fmap_cons, split_row_text. by rewrite <- IH.
Qed.

(** ** Quicksort *)

(* The order of [std::string::compare] is [String.le]. *)
Lemma ltb_false_le a b : String.ltb a b = false → String.le b a.
Proof.
  unfold String.le, String.leb, String.ltb.
  rewrite (String.compare_antisym b a).
  by destruct (String.compare a b).
Qed.

Lemma ltb_true_le a b : String.ltb a b = true → String.le a b.
Proof.
  unfold String.le, String.leb, String.ltb.
  by destruct (String.compare a b).
Qed.

Section within_facts.
Variables (lo hi : Z).

Lemma within_Permutation v v' : within lo hi v v' → v ≡ₚ v'.
Proof.
  induction 1 as [| v i j a b _ _ Hi Hj |]; [done | | by etrans].
  symmetry. by apply Permutation_insert_swap.
Qed.

Lemma within_length v v' : within lo hi v v' → length v' = length v.
Proof.
  induction 1; [done | by rewrite !length_insert | congruence].
Qed.

Lemma within_outside v v' (k : nat) :
  within lo hi v v' → ¬ (lo <= Z.of_nat k <= hi) → v' !! k = v !! k.
Proof.
  induction 1 as [| v i j a b Hi Hj _ _ | v1 v2 v3 _ IH1 _ IH2]; intros Hk.
  - done.
  - rewrite !list_lookup_insert_ne by (intros ->; lia). done.
  - by rewrite IH2, IH1.
Qed.

Lemma within_range_all P v v' :
  within lo hi v v' → range_all lo hi P v → range_all lo hi P v'.
Proof.
  induction 1 as [| v i j a b Hi Hj Ha Hb |]; [done | | auto].
  intros HP k c Hk Hc.
  destruct (decide (k = j)) as [->|Hkj].
  - rewrite list_lookup_insert_eq in Hc
      by (rewrite length_insert; eauto using lookup_lt_Some).
    injection Hc as <-. eauto.
  - rewrite list_lookup_insert_ne in Hc by done.
    destruct (decide (k = i)) as [->|Hki].
    + rewrite list_lookup_insert_eq in Hc by eauto using lookup_lt_Some.
      injection Hc as <-. eauto.
    + rewrite list_lookup_insert_ne in Hc by done. eauto.
Qed.

Lemma within_mono lo' hi' v v' :
  lo <= lo' → hi' <= hi → within lo' hi' v v' → within lo hi v v'.
Proof.
  intros Hlo Hhi. induction 1.
  - apply within_refl.
  - apply within_swap; (lia || done).
  - by eapply within_trans.
Qed.
End within_facts.


Lemma at_lookup {A : Type} (v : list A) (i : Z) (a : A) :
  0 <= i → v !! Z.to_nat i = Some a → at_ v i = Done a.
Proof. intros. by apply at_Done. Qed.

Lemma swap_Done v (l h : Z) a b :
  0 <= l → 0 <= h →
  v !! Z.to_nat l = Some a → v !! Z.to_nat h = Some b →
  swap v l h = Done (<[Z.to_nat h := a]> (<[Z.to_nat l := b]> v)).
Proof.
  intros Hl Hh Ha Hb. unfold swap.
  rewrite (at_lookup v l a), bind_Done, (at_lookup v h b), bind_Done by done.
  pose proof (lookup_lt_Some _ _ _ Ha). pose proof (lookup_lt_Some _ _ _ Hb).
  rewrite set_at_in_range, bind_Done by lia.
  rewrite set_at_in_range by (rewrite length_insert; lia). done.
Qed.

(* the scan from the left stops at the first element that is not below the
   pivot, at the latest on such an element at position [k] *)
Lemma scan_low_spec fuel v pivot (low : Z) (k : nat) ck :
  Z.of_nat (length v) <= INT_MAX →
  0 <= low <= Z.of_nat k →
  v !! k = Some ck → String.ltb (number ck) pivot = false →
  (k - Z.to_nat low < fuel)%nat →
  ∃ l c, scan_low fuel v pivot low = Done l
         ∧ low <= l <= Z.of_nat k
         ∧ range_all low (l - 1) (λ c, String.ltb (number c) pivot = true) v
         ∧ v !! Z.to_nat l = Some c ∧ String.ltb (number c) pivot = false.
Proof.
  intros Hmax Hlow Hk Hck. revert low Hlow.
  induction fuel as [|fuel IH]; intros low Hlow Hfuel; [lia|].
  pose proof (lookup_lt_Some _ _ _ Hk) as Hlen.
  destruct (lookup_lt_is_Some_2 v (Z.to_nat low)) as [c Hc]; [lia|].
  simpl. rewrite (at_lookup v low c), bind_Done by (lia || done).
  destruct (String.ltb (number c) pivot) eqn:Hlt.
  - assert (Z.to_nat low ≠ k) by (intros <-; congruence).
    rewrite (to_int_small (low + 1)) by (unfold INT_MIN, INT_MAX in *; lia).
    destruct (IH (low + 1)) as (l & c' & Hs & Hl & Hall & Hc' & Hstop); [lia | lia |].
    exists l, c'. split; [done|]; split; [lia|]; split; [|done].
    intros i ci Hi Hci.
    destruct (decide (i = Z.to_nat low)) as [->|Hne]; [congruence|].
    apply (Hall i); [lia | done].
  - exists low, c. split; [done|]; split; [lia|]; split; [|done].
    intros i ci Hi. lia.
Qed.

(* the scan from the right stops at the first element that is not above the
   pivot, at the latest on such an element at position [k] *)
Lemma scan_high_spec fuel v pivot (high : Z) (k : nat) ck :
  Z.of_nat (length v) <= INT_MAX →
  Z.of_nat k <= high < Z.of_nat (length v) →
  v !! k = Some ck → String.ltb pivot (number ck) = false →
  (Z.to_nat high - k < fuel)%nat →
  ∃ h c, scan_high fuel v pivot high = Done h
         ∧ Z.of_nat k <= h <= high
         ∧ range_all (h + 1) high (λ c, String.ltb pivot (number c) = true) v
         ∧ v !! Z.to_nat h = Some c ∧ String.ltb pivot (number c) = false.
Proof.
  intros Hmax Hhigh Hk Hck. revert high Hhigh.
  induction fuel as [|fuel IH]; intros high Hhigh Hfuel; [lia|].
  destruct (lookup_lt_is_Some_2 v (Z.to_nat high)) as [c Hc]; [lia|].
  simpl. rewrite (at_lookup v high c), bind_Done by (lia || done).
  destruct (String.ltb pivot (number c)) eqn:Hlt.
  - assert (Z.to_nat high ≠ k) by (intros <-; congruence).
    rewrite (to_int_small (high - 1)) by (unfold INT_MIN, INT_MAX in *; lia).
    destruct (IH (high - 1)) as (h & c' & Hs & Hh & Hall & Hc' & Hstop); [lia | lia |].
    exists h, c'. split; [done|]; split; [lia|]; split; [|done].
    intros i ci Hi Hci.
    destruct (decide (i = Z.to_nat high)) as [->|Hne]; [congruence|].
    apply (Hall i); [lia | done].
  - exists high, c. split; [done|]; split; [lia|]; split; [|done].
    intros i ci Hi. lia.
Qed.


(* The loop of [partition], from any state that its iterations can reach:
   the elements left of [low] are not above the pivot, those right of [high]
   are not below it, and each scan has an element in its way that stops
   it inside the range [lo0 .. hi0]. *)
Lemma partition_loop_spec n fuel pivot (lo0 hi0 : Z) v low high :
  Z.of_nat (length v) <= INT_MAX →
  0 <= lo0 → hi0 < Z.of_nat (length v) →
  lo0 <= low → high <= hi0 → low <= high + 1 →
  range_all lo0 (low - 1) (λ c, String.le (number c) pivot) v →
  range_all (high + 1) hi0 (λ c, String.le pivot (number c)) v →
  (∃ (k : nat) c, low <= Z.of_nat k <= hi0 ∧ v !! k = Some c
                  ∧ String.ltb (number c) pivot = false
                  ∧ (Z.of_nat k < hi0 ∨ high < hi0)) →
  (∃ (k : nat) c, lo0 <= Z.of_nat k <= high ∧ v !! k = Some c
                  ∧ String.ltb pivot (number c) = false) →
  (length v < fuel)%nat → high - low + 1 < Z.of_nat n →
  ∃ v' h, partition_loop n fuel v pivot low high = Done (v', h)
          ∧ lo0 <= h < hi0 ∧ within lo0 hi0 v v'
          ∧ range_all lo0 h (λ c, String.le (number c) pivot) v'
          ∧ range_all (h + 1) hi0 (λ c, String.le pivot (number c)) v'.
Proof.
  revert v low high.
  induction n as [|n IH];
    intros v low high Hmax Hlo0 Hhi0 Hlow Hhigh Hlh Hle Hge
           (ku & cu & Hku & Hcu & Hsu & Hor) (kd & cd & Hkd & Hcd & Hsd)
           Hfuel Hn; [lia|].
  destruct (scan_low_spec fuel v pivot low ku cu)
    as (l & cl & Hsl & Hl & Hall_l & Hcl & Hstop_l);
    [done | lia | done | done | lia |].
  destruct (scan_high_spec fuel v pivot high kd cd)
    as (h & ch & Hsh & Hh & Hall_h & Hch & Hstop_h);
    [done | lia | done | done | lia |].
  simpl. rewrite Hsl, bind_Done, Hsh, bind_Done.
  destruct (Z.leb_spec h l) as [Hhl|Hhl].
  - exists v, h. split; [done|]. split; [lia|]. split; [apply within_refl|]. split.
    + intros i c Hi Hc. destruct (Z_lt_le_dec (Z.of_nat i) low).
      { apply (Hle i); [lia | done]. }
      destruct (Z_lt_le_dec (Z.of_nat i) l).
      { apply ltb_true_le. apply (Hall_l i); [lia | done]. }
      assert (i = Z.to_nat h) as -> by lia.
      rewrite Hch in Hc. injection Hc as <-. by apply ltb_false_le.
    + intros i c Hi Hc. destruct (Z_lt_le_dec high (Z.of_nat i)).
      { apply (Hge i); [lia | done]. }
      apply ltb_true_le. apply (Hall_h i); [lia | done].
  - rewrite (swap_Done v l h cl ch) by (lia || done). rewrite bind_Done.
    pose proof (lookup_lt_Some _ _ _ Hcl) as Hlen_l.
    pose proof (lookup_lt_Some _ _ _ Hch) as Hlen_h.
    set (v1 := <[Z.to_nat h := cl]> (<[Z.to_nat l := ch]> v)).
    assert (Hv1l : v1 !! Z.to_nat l = Some ch).
    { unfold v1. rewrite list_lookup_insert_ne by lia.
      by apply list_lookup_insert_eq. }
    assert (Hv1h : v1 !! Z.to_nat h = Some cl).
    { unfold v1. apply list_lookup_insert_eq. by rewrite length_insert. }
    assert (Hv1o : ∀ i, i ≠ Z.to_nat l → i ≠ Z.to_nat h → v1 !! i = v !! i).
    { intros. unfold v1. by rewrite !list_lookup_insert_ne. }
    assert (Hlen1 : length v1 = length v)
      by (unfold v1; by rewrite !length_insert).
    rewrite (to_int_small (l + 1)), (to_int_small (h - 1))
      by (unfold INT_MIN, INT_MAX in *; lia).
    destruct (IH v1 (l + 1) (h - 1)) as (v' & r & Hp & Hr & Hw & Hle' & Hge');
      try lia.
    + intros i c Hi Hc. destruct (decide (i = Z.to_nat l)) as [->|Hne].
      { rewrite Hv1l in Hc. injection Hc as <-. by apply ltb_false_le. }
      rewrite Hv1o in Hc by lia.
      destruct (Z_lt_le_dec (Z.of_nat i) low).
      { apply (Hle i); [lia | done]. }
      apply ltb_true_le. apply (Hall_l i); [lia | done].
    + intros i c Hi Hc. destruct (decide (i = Z.to_nat h)) as [->|Hne].
      { rewrite Hv1h in Hc. injection Hc as <-. by apply ltb_false_le. }
      rewrite Hv1o in Hc by lia.
      destruct (Z_lt_le_dec high (Z.of_nat i)).
      { apply (Hge i); [lia | done]. }
      apply ltb_true_le. apply (Hall_h i); [lia | done].
    + exists (Z.to_nat h), cl. split; [lia|]. split; [done|]. split; [done|]. lia.
    + exists (Z.to_nat l), ch. split; [lia|]. split; [done|]. done.
    + exists v', r. split; [done|]. split; [lia|]. split; [|done].
      eapply within_trans; [|exact Hw].
      apply within_swap; (lia || done).
Qed.

Lemma partition_spec fuel v (lo hi : Z) :
  Z.of_nat (length v) <= INT_MAX →
  0 <= lo < hi → hi < Z.of_nat (length v) → (length v < fuel)%nat →
  ∃ v' h pivot, partition fuel v lo hi = Done (v', h)
                ∧ lo <= h < hi ∧ within lo hi v v'
                ∧ range_all lo h (λ c, String.le (number c) pivot) v'
                ∧ range_all (h + 1) hi (λ c, String.le pivot (number c)) v'.
Proof.
  intros Hmax Hlo Hhi Hfuel. unfold partition.
  rewrite (to_int_small (hi - lo)) by (unfold INT_MIN, INT_MAX in *; lia).
  assert (Hq : 0 <= (hi - lo) `quot` 2 < hi - lo).
  { rewrite Z.quot_div_nonneg by lia.
    pose proof (Z.div_pos (hi - lo) 2). pose proof (Z.div_lt (hi - lo) 2). lia. }
  rewrite (to_int_small (lo + _)) by (unfold INT_MIN, INT_MAX in *; lia).
  set (m := lo + (hi - lo) `quot` 2).
  assert (Hm : lo <= m < hi) by (unfold m; lia).
  destruct (lookup_lt_is_Some_2 v (Z.to_nat m)) as [c Hc]; [lia|].
  rewrite (at_lookup v m c), bind_Done by (lia || done).
  assert (Hrefl : String.ltb (number c) (number c) = false).
  { unfold String.ltb.
    assert (String.compare (number c) (number c) = Eq) as ->; [|done].
    pose proof (String.compare_antisym (number c) (number c)).
    destruct (String.compare (number c) (number c)); done. }
  destruct (partition_loop_spec fuel fuel (number c) lo hi v lo hi)
    as (v' & h & Hp & Hh & Hw & Hle & Hge); try lia.
  - intros i ci Hi. lia.
  - intros i ci Hi. lia.
  - exists (Z.to_nat m), c. split; [lia|]. split; [done|]. split; [done|]. lia.
  - exists (Z.to_nat m), c. split; [lia|]. done.
  - exists v', h, (number c). done.
Qed.


Lemma Quicksort_rec_spec depth fuel v (lo hi : Z) :
  Z.of_nat (length v) <= INT_MAX →
  0 <= lo → hi < Z.of_nat (length v) → (length v < fuel)%nat →
  (0 < depth)%nat → hi - lo < Z.of_nat depth →
  ∃ v', Quicksort_rec depth fuel v lo hi = Done v'
        ∧ within lo hi v v' ∧ range_sorted lo hi v'.
Proof.
  revert v lo hi.
  induction depth as [|depth IH];
    intros v lo hi Hmax Hlo Hhi Hfuel Hpos Hd; [lia|].
  simpl. destruct (Z.leb_spec hi lo) as [Hle|Hlt].
  - exists v. split; [done|]. split; [apply within_refl|].
    intros i j a b Hi Hij Hj Ha Hb. assert (i = j) as -> by lia.
    rewrite Ha in Hb. injection Hb as <-. reflexivity.
  - destruct (partition_spec fuel v lo hi)
      as (v1 & h & pivot & Hp & Hh & Hw1 & Hle & Hge); try lia.
    rewrite Hp, bind_Done.
    pose proof (within_length _ _ _ _ Hw1) as Hlen1.
    destruct (IH v1 lo h) as (v2 & Hq2 & Hw2 & Hs2); try lia.
    rewrite Hq2, bind_Done.
    pose proof (within_length _ _ _ _ Hw2) as Hlen2.
    rewrite (to_int_small (h + 1)) by (unfold INT_MIN, INT_MAX in *; lia).
    destruct (IH v2 (h + 1) hi) as (v3 & Hq3 & Hw3 & Hs3); try lia.
    exists v3. split; [done|]. split.
    { eapply within_trans; [exact Hw1|].
      eapply within_trans; [eapply within_mono; [| |exact Hw2]; lia|].
      eapply within_mono; [| |exact Hw3]; lia. }
    assert (Hle3 : range_all lo h (λ c, String.le (number c) pivot) v3).
    { pose proof (within_range_all lo h _ v1 v2 Hw2 Hle) as Hle2.
      intros k c Hk Hc.
      rewrite (within_outside (h + 1) hi v2 v3 k Hw3) in Hc by lia.
      by apply (Hle2 k). }
    assert (Hge3 : range_all (h + 1) hi (λ c, String.le pivot (number c)) v3).
    { apply (within_range_all _ _ _ v2 v3 Hw3). intros k c Hk Hc.
      rewrite (within_outside lo h v1 v2 k Hw2) in Hc by lia.
      by apply (Hge k). }
    intros i j a b Hi Hij Hj Ha Hb.
    destruct (Z_le_gt_dec (Z.of_nat j) h).
    { rewrite (within_outside (h + 1) hi v2 v3 i Hw3) in Ha by lia.
      rewrite (within_outside (h + 1) hi v2 v3 j Hw3) in Hb by lia.
      apply (Hs2 i j); (lia || done). }
    destruct (Z_le_gt_dec (Z.of_nat i) h).
    { transitivity pivot; [apply (Hle3 i) | apply (Hge3 j)]; (lia || done). }
    apply (Hs3 i j); (lia || done).
Qed.

Lemma range_sorted_Sorted v :
  range_sorted 0 (Z.of_nat (length v) - 1) v → Sorted String.le (number <$> v).
Proof.
  induction v as [|a v IH]; intros Hs; [constructor|].
  rewrite fmap_cons. constructor.
  - apply IH. intros i j x y Hi Hij Hj Hx Hy.
    apply (Hs (S i) (S j)); simpl in *; (lia || done).
  - destruct v as [|b v]; constructor.
    apply (Hs 0%nat 1%nat); simpl; (lia || done).
Qed.

(* [Quicksort] over all the indices of a vector *)
Lemma Quicksort_whole fuel (v : list Course) :
  Z.of_nat (length v) <= INT_MAX →
  (length v < fuel)%nat →
  ∃ sorted,
    Quicksort fuel v 0 (to_int (to_size_t (Z.of_nat (length v) - 1))) = Done sorted
    ∧ Sorted String.le (number <$> sorted)
    ∧ sorted ≡ₚ v.
Proof.
  intros Hmax Hfuel. unfold Quicksort.
  assert (Hhi : to_int (to_size_t (Z.of_nat (length v) - 1))
                = Z.of_nat (length v) - 1).
  { unfold INT_MAX in Hmax. destruct (length v) as [|n]; [reflexivity|].
    rewrite to_size_t_small by (unfold SIZE_MAX; lia).
    apply to_int_small. unfold INT_MIN, INT_MAX. lia. }
  rewrite Hhi.
  destruct (Quicksort_rec_spec fuel fuel v 0 (Z.of_nat (length v) - 1))
    as (v' & Hq & Hw & Hs); try lia.
  exists v'. split; [done|].
  pose proof (within_length _ _ _ _ Hw) as Hlen. split.
  - apply range_sorted_Sorted. by rewrite Hlen.
  - symmetry. by eapply within_Permutation.
Qed.

(** C6.  The records of a table, exported by [toVector] and sorted by
    [Quicksort] over all the indices as [main] does it.  For every table the
    call returns, the course numbers of the result do not decrease in the
    order of [std::string::compare], and they are the numbers of the
    exported records.  The exported records are the stored ones: when the
    table was built from a new table by the insertion of some records,
    whatever value [hash] starts from in each insertion, the result holds
    exactly these records, each as often as it was inserted, so no number is
    lost and none is added.  (The vector has at most [INT_MAX] elements, and
    the loops of the model get more [fuel] than that count.) *)
Theorem list_sorted_spec (fuel : nat) (t : HashTable) :
  Z.of_nat (length (toVector t)) <= INT_MAX →
  (length (toVector t) < fuel)%nat →
  ∃ sorted, list_sorted fuel t = Done sorted
            ∧ Sorted String.le (number <$> sorted)
            ∧ number <$> sorted ≡ₚ number <$> toVector t
            ∧ ∀ cs, inserted t cs →
                    sorted ≡ₚ cs ∧ number <$> sorted ≡ₚ number <$> cs.
Proof.
  intros Hmax Hfuel.
  destruct (Quicksort_whole fuel (toVector t) Hmax Hfuel)
    as (sorted & Hq & Hs & Hp).
  exists sorted. split; [done|]. split; [done|].
  split; [by apply fmap_Permutation|].
  intros cs [_ Hperm]%inserted_toVector.
  assert (sorted ≡ₚ cs) as Hcs by (by rewrite Hp).
  split; [done|]. by apply fmap_Permutation.
Qed.

Lemma list_sorted_spec_witness :
  ∃ sorted,
    list_sorted 4 {| m_nodes := [mkNode CS101 0
                                   (heap CS100 0
                                      (heap (mkCourse "CS050" "Start" []) 0
                                         nullptr))];
                     m_size := 1 |} = Done sorted
    ∧ Sorted String.le (number <$> sorted)
    ∧ sorted ≡ₚ (([] ++ [CS101]) ++ [CS100])
                 ++ [mkCourse "CS050" "Start" []].
Proof.
  destruct (list_sorted_spec 4
              {| m_nodes := [mkNode CS101 0
                               (heap CS100 0
                                  (heap (mkCourse "CS050" "Start" []) 0
                                     nullptr))];
                 m_size := 1 |}) as (sorted & Hq & Hs & _ & Hcs).
  - vm_compute. discriminate.
  - simpl. lia.
  - exists sorted. split; [exact Hq|]. split; [exact Hs|].
    apply Hcs.
    apply (inserted_insert
             {| m_nodes := [mkNode CS101 0 (heap CS100 0 nullptr)];
                m_size := 1 |} _ 7 (mkCourse "CS050" "Start" []));
      [|reflexivity].
    apply (inserted_insert {| m_nodes := [mkNode CS101 0 nullptr];
                              m_size := 1 |} _ 5 CS100); [|reflexivity].
    apply (inserted_insert (HashTable_new 1) [] 3 CS101); [|reflexivity].
    apply inserted_new. unfold UINT_MAX. lia.
Defined.


(** ** The example file *)

(** C1.  The file of the example, "CS101,Intro,CS100" and "CS100,Basics"
    with a row delimiter after each, has the rows that [ValidateFile]
    describes (number,title,prerequisite 1,...), and the function is
    documented to return the number of rows.  Its second row has no
    delimiter after the title, the loop counts one field, and the call
    returns -1 with "only 1 values were found"; [main] then ends before it
    builds a table, so nothing is loaded, listed or found.  Were the file
    loaded into a table of 2 slots all the same, the record of CS100 would
    have no title and the prerequisite "Basic", and [main] would print
    "could not find" for CS100. *)
Theorem example_file_is_rejected :
  ValidateFile (Some example_file) = Done (-1)
  ∧ main_table (Some example_file) = Done None
  ∧ ∀ sum0, ∃ t,
      loadFromCSV (λ _, sum0) (HashTable_new 2) (Some example_file) = Done t
      ∧ search sum0 t "CS100" = Done (mkCourse "CS100" "" ["Basic"])
      ∧ find_and_print sum0 t "CS100" = Done (CouldNotFind "CS100").
Proof.
  split; [reflexivity|]. split; [reflexivity|]. intros sum0.
  destruct (hash_in_range 2 sum0 "CS101") as (k1 & H1 & Hk1); [lia|].
  destruct (hash_in_range 2 sum0 "CS100") as (k2 & H2 & Hk2); [lia|].
  assert (Hc1 : k1 = 0 ∨ k1 = 1) by lia.
  assert (Hc2 : k2 = 0 ∨ k2 = 1) by lia.
  unfold find_and_print, loadFromCSV, search, insert.
  destruct Hc1 as [-> | ->], Hc2 as [-> | ->];
    (eexists; split;
     [repeat (cbv -[hash]; rewrite ?H1, ?H2); reflexivity|]);
    repeat (cbv -[hash]; rewrite ?H1, ?H2); done.
Qed.

(* With every field followed by the delimiter, the file of the example is
   validated with 2 rows and [main] builds a table of 2 slots; a load
   stores both records, and the sorted list is CS100, CS101, whatever
   [hash] starts from in each insertion; and, when every call of [hash]
   starts from the same value of [sum], the search of CS100 returns the
   record of title Basics and the search of CS999 returns the empty
   record. *)
Lemma example_file_delimited_run (sums : nat → Z) (sum0 : Z) :
  ValidateFile (Some example_file_delimited) = Done 2
  ∧ main_table (Some example_file_delimited) = Done (Some (HashTable_new 2))
  ∧ (∃ t, loadFromCSV sums (HashTable_new 2) (Some example_file_delimited)
          = Done t
          ∧ toVector t ≡ₚ [CS101; CS100]
          ∧ list_sorted 3 t = Done [CS100; CS101])
  ∧ (∃ t, loadFromCSV (λ _, sum0) (HashTable_new 2)
            (Some example_file_delimited) = Done t
          ∧ search sum0 t "CS100" = Done CS100
          ∧ title CS100 = "Basics"
          ∧ search sum0 t "CS999" = Done Course_empty).
Proof.
  split; [reflexivity|]. split; [reflexivity|]. split.
  - destruct (hash_in_range 2 (sums 0%nat) "CS101") as (k1 & H1 & Hk1); [lia|].
    destruct (hash_in_range 2 (sums 1%nat) "CS100") as (k2 & H2 & Hk2); [lia|].
    assert (Hc1 : k1 = 0 ∨ k1 = 1) by lia.
    assert (Hc2 : k2 = 0 ∨ k2 = 1) by lia.
    unfold loadFromCSV, insert.
    destruct Hc1 as [-> | ->], Hc2 as [-> | ->];
      (eexists; split;
       [repeat (cbv -[hash]; rewrite ?H1, ?H2); reflexivity|]);
      (split; [solve [reflexivity | apply Permutation_swap] | reflexivity]).
  - destruct (hash_in_range 2 sum0 "CS101") as (k1 & H1 & Hk1); [lia|].
    destruct (hash_in_range 2 sum0 "CS100") as (k2 & H2 & Hk2); [lia|].
    destruct (hash_in_range 2 sum0 "CS999") as (k3 & H3 & Hk3); [lia|].
    assert (Hc1 : k1 = 0 ∨ k1 = 1) by lia.
    assert (Hc2 : k2 = 0 ∨ k2 = 1) by lia.
    assert (Hc3 : k3 = 0 ∨ k3 = 1) by lia.
    unfold loadFromCSV, search, insert.
    destruct Hc1 as [-> | ->], Hc2 as [-> | ->], Hc3 as [-> | ->];
      (eexists; split;
       [repeat (cbv -[hash]; rewrite ?H1, ?H2, ?H3); reflexivity|]);
      repeat (cbv -[hash]; rewrite ?H1, ?H2, ?H3); done.
Qed.

(** ** Not found and the empty title *)

(** C9, as it is stated, fails: the record that [search] returns for an
    absent key is a record that the table can hold.  The row [","] is read
    as the empty record; once it is stored, the search of its number and the
    search of a number that no record has return the same value.  And for a
    stored record with a number and an empty title, [main] prints the same
    "could not find" as for a number that no record has. *)
Lemma search_result_of_stored_empty_record :
  read_row "," = Done Course_empty
  ∧ (∃ t, (∀ sum0, insert sum0 (HashTable_new 1) Course_empty = Done t)
          ∧ Course_empty ∈ toVector t
          ∧ title Course_empty = ""
          ∧ ("CS999" ∉ number <$> toVector t)
          ∧ ∀ s1 s2, search s1 t (number Course_empty) = search s2 t "CS999")
  ∧ (∃ t, (∀ sum0, insert sum0 (HashTable_new 1) (mkCourse "CS100" "" [])
                   = Done t)
          ∧ (∀ s, find_and_print s t "CS100" = Done (CouldNotFind "CS100"))
          ∧ (∀ s, find_and_print s t "CS999" = Done (CouldNotFind "CS999"))).
Proof.
  split; [reflexivity|]. split.
  - exists {| m_nodes := [mkNode Course_empty 0 nullptr]; m_size := 1 |}.
    split; [intros; run_one_slot|].
    split; [by apply list_elem_of_singleton|].
    split; [done|].
    split; [by intros ?%list_elem_of_singleton|].
    intros. run_one_slot.
  - exists {| m_nodes := [mkNode (mkCourse "CS100" "" []) 0 nullptr];
              m_size := 1 |}.
    split; [intros; run_one_slot|].
    split; intros; unfold find_and_print; run_one_slot.
Qed.

Lemma search_chain_Some course_number p c :
  search_chain course_number p = Some c →
  number c = course_number ∧ c ∈ chain_courses p.
Proof.
  induction p as [|c' k p IH]; simpl; [done|].
  destruct (String.eqb_spec (number c') course_number) as [He|Hne].
  - intros [= <-]. split; [done | by left].
  - intros [? ?]%IH. split; [done | by right].
Qed.

(* whatever [hash] starts from, a result of [search] other than the empty
   record is a stored record with the number that was asked for *)
Lemma search_result_stored sum0 t course_number r :
  table_ok t →
  search sum0 t course_number = Done r →
  r = Course_empty ∨ (number r = course_number ∧ r ∈ toVector t).
Proof.
  intros Hok.
  destruct (slot_of_key sum0 t course_number Hok)
    as (k & head & Hh & Hk & Hat & Hl).
  unfold search. rewrite Hh, bind_Done, Hat, bind_Done.
  destruct (Z.eqb_spec (key head) UINT_MAX) as [He|Hne].
  { intros [= <-]. by left. }
  destruct (String.eqb_spec (number (course head)) course_number) as [Hn|Hn].
  { intros [= <-]. right. split; [done|].
    eapply slot_in_toVector; [done|].
    rewrite slot_courses_used by done. by left. }
  destruct (search_chain course_number (next head)) as [c|] eqn:Hs.
  - intros [= <-]. right.
    apply search_chain_Some in Hs as [Hc Hin]. split; [done|].
    eapply slot_in_toVector; [done|].
    rewrite slot_courses_used by done. by right.
  - intros [= <-]. by left.
Qed.

(* [search] and the records of the slot, in their order *)
Lemma with_number_cons course_number c cs :
  with_number course_number (c :: cs)
  = if String.eqb (number c) course_number
    then c :: with_number course_number cs
    else with_number course_number cs.
Proof.
  unfold with_number. rewrite filter_cons.
  destruct (String.eqb_spec (number c) course_number);
    destruct (decide (number c = course_number)); done.
Qed.

Lemma with_number_app course_number cs1 cs2 :
  with_number course_number (cs1 ++ cs2)
  = with_number course_number cs1 ++ with_number course_number cs2.
Proof. apply filter_app. Qed.

Lemma with_number_elem course_number cs r :
  r ∈ with_number course_number cs ↔ number r = course_number ∧ r ∈ cs.
Proof. unfold with_number. by rewrite list_elem_of_filter. Qed.

Lemma with_number_absent course_number cs :
  course_number ∉ number <$> cs → with_number course_number cs = [].
Proof.
  intros Hn. destruct (with_number course_number cs) as [|r l] eqn:Hw; [done|].
  assert (Hr : r ∈ with_number course_number cs) by (rewrite Hw; by left).
  apply with_number_elem in Hr as [<- Hr].
  destruct Hn. by apply list_elem_of_fmap_2.
Qed.

Lemma with_number_present course_number cs :
  course_number ∈ number <$> cs →
  ∃ r l, with_number course_number cs = r :: l.
Proof.
  intros (c & -> & Hc)%list_elem_of_fmap.
  destruct (with_number (number c) cs) as [|r l] eqn:Hw; [|eauto].
  assert (Hin : c ∈ with_number (number c) cs) by (by apply with_number_elem).
  rewrite Hw in Hin. by apply elem_of_nil in Hin.
Qed.

Lemma search_chain_first course_number p :
  search_chain course_number p
  = head (with_number course_number (chain_courses p)).
Proof.
  induction p as [|c k p IH]; [done|]. simpl.
  rewrite with_number_cons.
  by destruct (String.eqb (number c) course_number).
Qed.

(* [search] returns the first record of the slot that has the number, and
   the empty record when the slot has none *)
Lemma search_first sum0 t course_number k node :
  hash sum0 (m_size t) course_number = Done k → 0 <= k →
  m_nodes t !! Z.to_nat k = Some node →
  search sum0 t course_number
  = Done (default Course_empty
            (head (with_number course_number (slot_courses node)))).
Proof.
  intros Hh Hk Hl. unfold search.
  rewrite Hh, bind_Done, (proj2 (at_Done _ _ _) (conj Hk Hl)), bind_Done.
  unfold slot_courses.
  destruct (Z.eqb_spec (key node) UINT_MAX) as [He|Hne]; [done|].
  rewrite with_number_cons.
  destruct (String.eqb (number (course node)) course_number); [done|].
  rewrite search_chain_first.
  by destruct (head (with_number course_number (chain_courses (next node)))).
Qed.

(* what [insert] does to the slots: the record is put after the records
   of the slot of its number *)
Lemma insert_slot sum0 t c t' :
  table_ok t → insert sum0 t c = Done t' →
  ∃ k node node',
    hash sum0 (m_size t) (number c) = Done k ∧ 0 <= k
    ∧ m_nodes t !! Z.to_nat k = Some node
    ∧ m_nodes t' = <[Z.to_nat k := node']> (m_nodes t)
    ∧ m_size t' = m_size t ∧ table_ok t'
    ∧ slot_courses node' = slot_courses node ++ [c].
Proof.
  intros Hok Hins.
  destruct (slot_of_key sum0 t (number c) Hok) as (k & node & Hh & Hk & Hat & Hl).
  destruct Hok as [Hm Hlen].
  unfold insert in Hins. rewrite Hh, bind_Done, Hat, bind_Done in Hins.
  destruct (Z.eqb_spec (key node) UINT_MAX) as [He|Hne];
    rewrite set_at_in_range, bind_Done in Hins by lia;
    injection Hins as <-; exists k, node; eexists;
    (split; [done|]); (split; [lia|]); (split; [done|]);
    (split; [reflexivity|]); (split; [done|]);
    (split; [split; simpl; [done | by rewrite length_insert]|]).
  - rewrite (slot_courses_empty node He), slot_courses_used by (simpl; lia).
    done.
  - rewrite !slot_courses_used by done. simpl.
    by rewrite chain_courses_link_last.
Qed.

(* in a table built with one start value of [sum], the records with a
   number are the records with that number in the slot of the number, in
   the order in which they were inserted *)
Lemma inserted_from_slots sum0 t cs :
  inserted_from sum0 t cs →
  table_ok t
  ∧ ∀ course_number k node,
      hash sum0 (m_size t) course_number = Done k →
      m_nodes t !! Z.to_nat k = Some node →
      with_number course_number (slot_courses node)
      = with_number course_number cs.
Proof.
  induction 1 as [t_size Hsz | t cs c t' _ [Hok IH] Hins].
  - split; [by apply HashTable_new_ok|].
    intros n k node _ Hl. simpl in Hl.
    apply lookup_replicate in Hl as [-> _]. done.
  - destruct (insert_slot sum0 t c t' Hok Hins)
      as (kc & nodec & node' & Hhc & Hkc & Hlc & Hnodes & Hsize & Hok' & Hslot).
    split; [done|]. intros n k node Hh Hl.
    rewrite Hsize in Hh. rewrite Hnodes in Hl.
    destruct (hash_in_range (m_size t) sum0 n) as (k' & Hh' & Hk');
      [destruct Hok; lia|].
    rewrite Hh in Hh'. injection Hh' as <-.
    rewrite with_number_app.
    destruct (decide (k = kc)) as [->|Hne].
    + rewrite list_lookup_insert_eq in Hl by eauto using lookup_lt_Some.
      injection Hl as <-.
      by rewrite Hslot, with_number_app, (IH n kc nodec).
    + rewrite list_lookup_insert_ne in Hl by lia.
      rewrite (IH n k node) by done.
      rewrite with_number_cons.
      destruct (String.eqb_spec (number c) n) as [Hn|Hn]; [|by rewrite app_nil_r].
      rewrite Hn, Hh in Hhc. by injection Hhc.
Qed.

(* [search] on such a table: the record with the number that was inserted
   first, and the empty record when none was inserted *)
Lemma search_inserted sum0 t cs course_number :
  inserted_from sum0 t cs →
  search sum0 t course_number
  = Done (default Course_empty (head (with_number course_number cs))).
Proof.
  intros [Hok Hslots]%inserted_from_slots.
  destruct (slot_of_key sum0 t course_number Hok)
    as (k & node & Hh & Hk & _ & Hl).
  rewrite (search_first sum0 t course_number k node) by (done || lia).
  by rewrite (Hslots course_number k node).
Qed.

(** C9.  [search] has no result of its own for an absent key: it returns
    the empty record [Course {}], and [main] tells "could not find" by the
    empty title of the result.  In every table that is built by insertions
    (all calls of [hash] starting from one value of [sum]): a number that
    was not inserted gives the empty record; a number that is not empty and
    was inserted gives a record that was inserted with it, which is not the
    empty record, also when its title is empty, so the two results differ;
    and when no title that was inserted is empty, [main] prints "could not
    find" for the numbers that were not inserted and for no other. *)
Theorem search_not_found_signal (sum0 : Z) (t : HashTable) (cs : list Course) :
  inserted_from sum0 t cs →
  (∀ absent, absent ∉ number <$> cs →
     search sum0 t absent = Done Course_empty)
  ∧ (∀ c, c ∈ cs → number c ≠ "" →
       ∃ r, search sum0 t (number c) = Done r
            ∧ r ∈ cs ∧ number r = number c ∧ r ≠ Course_empty)
  ∧ (∀ c absent, c ∈ cs → number c ≠ "" → absent ∉ number <$> cs →
       search sum0 t (number c) ≠ search sum0 t absent)
  ∧ (Forall (λ c, title c ≠ "") cs →
     ∀ course_number,
       find_and_print sum0 t course_number = Done (CouldNotFind course_number)
       ↔ course_number ∉ number <$> cs).
Proof.
  intros Hins.
  assert (Habsent : ∀ absent, absent ∉ number <$> cs →
            search sum0 t absent = Done Course_empty).
  { intros absent Hn.
    by rewrite (search_inserted sum0 t cs absent Hins), with_number_absent. }
  assert (Hpresent : ∀ n, n ∈ number <$> cs →
            ∃ r, search sum0 t n = Done r ∧ r ∈ cs ∧ number r = n).
  { intros n Hn. destruct (with_number_present n cs Hn) as (r & l & Hw).
    exists r. rewrite (search_inserted sum0 t cs n Hins), Hw. split; [done|].
    assert (Hr : r ∈ with_number n cs) by (rewrite Hw; by left).
    apply with_number_elem in Hr as [? ?]. by split. }
  split; [done|]. split; [|split].
  - intros c Hc Hne.
    destruct (Hpresent (number c)) as (r & Hs & Hr & Hnum);
      [by apply list_elem_of_fmap_2|].
    exists r. split; [done|]. split; [done|]. split; [done|].
    intros ->. by rewrite <- Hnum in Hne.
  - intros c absent Hc Hne Hab.
    destruct (Hpresent (number c)) as (r & Hs & Hr & Hnum);
      [by apply list_elem_of_fmap_2|].
    rewrite Hs, (Habsent absent Hab). intros [= ->].
    by rewrite <- Hnum in Hne.
  - intros Htitles n. unfold find_and_print. split.
    + intros Hf Hn. destruct (Hpresent n Hn) as (r & Hs & Hr & _).
      rewrite Hs, bind_Done in Hf.
      rewrite Forall_forall in Htitles. specialize (Htitles r Hr).
      destruct (String.eqb_spec (title r) ""); [done | discriminate].
    + intros Hn. by rewrite (Habsent n Hn).
Qed.

Lemma search_not_found_signal_witness :
  (∀ absent, absent ∉ number <$> ([] ++ [untitled]) ++ [CS101] →
     search 0 untitled_table absent = Done Course_empty)
  ∧ (∀ c, c ∈ ([] ++ [untitled]) ++ [CS101] → number c ≠ "" →
       ∃ r, search 0 untitled_table (number c) = Done r
            ∧ r ∈ ([] ++ [untitled]) ++ [CS101]
            ∧ number r = number c ∧ r ≠ Course_empty)
  ∧ (∀ c absent, c ∈ ([] ++ [untitled]) ++ [CS101] → number c ≠ "" →
       absent ∉ number <$> ([] ++ [untitled]) ++ [CS101] →
       search 0 untitled_table (number c) ≠ search 0 untitled_table absent)
  ∧ (Forall (λ c, title c ≠ "") (([] ++ [untitled]) ++ [CS101]) →
     ∀ course_number,
       find_and_print 0 untitled_table course_number
       = Done (CouldNotFind course_number)
       ↔ course_number ∉ number <$> ([] ++ [untitled]) ++ [CS101]).
Proof.
  apply (search_not_found_signal 0 untitled_table
           (([] ++ [untitled]) ++ [CS101])).
  apply (inserted_from_insert 0
           {| m_nodes := [Node_empty; mkNode untitled 1 nullptr];
              m_size := 2 |} _ CS101); [|reflexivity].
  apply (inserted_from_insert 0 (HashTable_new 2) [] untitled); [|reflexivity].
  apply inserted_from_new. unfold UINT_MAX. lia.
Defined.

(** C3.  [ValidateFile] is documented to return the number of rows unless
    the formatting is bad, and describes a row as
    number,title,prerequisite 1,...  Its loop counts a field only when a
    delimiter follows it, and the text after the last delimiter goes to the
    set of prerequisites, one character short.  So the file of the one row
    "CS100,Basics" is rejected, "only 1 values were found", while the same
    row with a delimiter after the title is counted; and a file whose last
    prerequisite CS100 is the number of its second row is rejected, because
    "CS10" is looked up instead. *)
Theorem ValidateFile_rejects_two_field_row :
  split_row "CS100,Basics" = (["CS100"], "Basics")
  ∧ ValidateFile (Some (file_text ["CS100,Basics"])) = Done (-1)
  ∧ ValidateFile (Some (file_text ["CS100,Basics,"])) = Done 1
  ∧ ValidateFile (Some (file_text ["CS101,Intro,CS100"; "CS100,Basics,"]))
    = Done (-1).
Proof. repeat split; reflexivity. Qed.

(** * Further properties *)

(** ** hash *)

(** X1.  For a table with at least one slot, [hash] returns for every key
    and from every start value of [sum]: the result is the index of a
    slot. *)
Theorem hash_slot_index (sum0 m_size : Z) (course_number : string) :
  0 < m_size →
  ∃ k, hash sum0 m_size course_number = Done k ∧ 0 <= k < m_size.
Proof. apply hash_in_range. Qed.

Lemma hash_slot_index_witness :
  ∃ k, hash 12345 179 "CSCI100" = Done k ∧ 0 <= k < 179.
Proof. apply (hash_slot_index 12345 179 "CSCI100"). lia. Defined.

(* the loop adds to [sum] an amount that does not depend on [sum], as long
   as the [size_t] does not wrap *)
Lemma hash_loop_shift m_size length key i sum :
  0 < m_size → 0 <= sum →
  sum + size key * m_size <= SIZE_MAX →
  ∃ total, hash_loop m_size length key i 0 = Done total
           ∧ 0 <= total <= size key * (m_size - 1)
           ∧ hash_loop m_size length key i sum = Done (sum + total).
Proof.
  intros Hm. revert i sum.
  induction key as [|c rest IH]; intros i sum Hs Hmax.
  - exists 0. simpl. change (size "") with 0. split; [done|].
    split; [lia | by rewrite Z.add_0_r].
  - rewrite size_String in Hmax |- *. pose proof (size_nonneg rest) as Hr.
    simpl. destruct (to_size_t i <? length).
    2: { exists 0. split; [done|]. split; [nia | by rewrite Z.add_0_r]. }
    destruct (Z.eqb_spec m_size 0); [lia|].
    set (term := to_unsigned (to_int (char_to_int c * pow31 i)) mod m_size).
    assert (Ht : 0 <= term < m_size) by (apply Z.mod_pos_bound; lia).
    rewrite (to_size_t_small (0 + term)), (to_size_t_small (sum + term))
      by (unfold SIZE_MAX in *; nia).
    destruct (IH (to_int (i + 1)) (0 + term)) as (t1 & H0 & Hb & H1); [lia | nia |].
    destruct (IH (to_int (i + 1)) (sum + term)) as (t2 & H0' & _ & H2); [lia | nia |].
    rewrite H0 in H0'. injection H0' as <-.
    exists (term + t1). rewrite H1, H2. split; [f_equal; lia|].
    split; [nia | f_equal; lia].
Qed.

(** X2.  How the result of [hash] depends on the value that [sum] starts
    from: as long as the [size_t] accumulator does not wrap, the slot is the
    slot computed from 0, moved by the start value modulo the table size.
    Two calls on one key give the same slot exactly when their start values
    are congruent modulo the table size. *)
Theorem hash_start_value (sum0 m_size h : Z) (course_number : string) :
  0 < m_size → 0 <= sum0 →
  sum0 + size course_number * m_size <= SIZE_MAX →
  hash 0 m_size course_number = Done h →
  hash sum0 m_size course_number = Done ((sum0 + h) mod m_size).
Proof.
  intros Hm Hs Hmax. unfold hash.
  destruct (hash_loop_shift m_size (size course_number) course_number 0 sum0)
    as (total & H0 & Hb & H1); [done..|].
  rewrite H0, H1, !bind_Done. destruct (Z.eqb_spec m_size 0); [lia|].
  intros [= <-]. f_equal. by rewrite Z.add_mod_idemp_r by lia.
Qed.

Lemma hash_start_value_witness :
  hash 7 5 "CSCI100" = Done ((7 + 1) mod 5).
Proof.
  apply (hash_start_value 7 5 1 "CSCI100"); [lia | lia | vm_compute; discriminate |].
  reflexivity.
Defined.

(** ** operator<< *)

Lemma app_empty_r s : s +:+ "" = s.
Proof. induction s as [|a s IH]; [done|]. rewrite app_String. by rewrite IH. Qed.

Lemma print_prerequisites_concat prerequisites printed rest :
  prerequisites = printed ++ rest →
  Z.of_nat (length prerequisites) <= INT_MAX →
  print_prerequisites (Z.of_nat (length prerequisites)) prerequisites rest
    (Z.of_nat (length printed))
  = Done (String.concat ", " rest).
Proof.
  intros Heq Hmax. revert printed Heq.
  induction rest as [|p rest IH]; intros printed Heq; [done|].
  assert (Hlen : length prerequisites = (length printed + S (length rest))%nat)
    by (rewrite Heq, length_app; done).
  unfold INT_MAX in Hmax. simpl print_prerequisites.
  rewrite (to_size_t_small (Z.of_nat (length printed)))
    by (unfold SIZE_MAX; lia).
  rewrite (to_size_t_small (Z.of_nat (length prerequisites) - 1))
    by (unfold SIZE_MAX; lia).
  destruct (Z.ltb_spec (Z.of_nat (length printed))
              (Z.of_nat (length prerequisites))); [|lia].
  assert (Hat : at_ prerequisites (Z.of_nat (length printed)) = Done p).
  { apply at_lookup; [lia|]. rewrite Nat2Z.id, Heq.
    by rewrite lookup_app_r, Nat.sub_diag by lia. }
  rewrite Hat, !bind_Done.
  rewrite (to_int_small (Z.of_nat (length printed) + 1))
    by (unfold INT_MIN, INT_MAX; lia).
  replace (Z.of_nat (length printed) + 1)
    with (Z.of_nat (length (printed ++ [p])))
    by (rewrite length_app; simpl; lia).
  rewrite (IH (printed ++ [p])) by (by rewrite <- app_assoc).
  rewrite !bind_Done.
  destruct (Z.eqb_spec (Z.of_nat (length printed))
              (Z.of_nat (length prerequisites) - 1)) as [He|Hne].
  - destruct rest; [|simpl in Hlen; lia]. simpl. by rewrite app_empty_r.
  - destruct rest; [simpl in Hlen; lia|]. reflexivity.
Qed.

(** X3.  The text that [operator<<] writes for a course: the number and the
    title on a line each, then the prerequisites on the third line,
    separated by a comma and a space, with no separator after the last one
    and no end of line.  No call of [at] is out of range. *)
Theorem print_Course_text (c : Course) :
  Z.of_nat (length (prerequisites c)) <= INT_MAX →
  print_Course c
  = Done ("Number: " +:+ number c +:+ endl +:+ "Title: " +:+ title c +:+ endl
          +:+ "Prerequisites: " +:+ String.concat ", " (prerequisites c)).
Proof.
  intros Hmax. unfold print_Course.
  pose proof (print_prerequisites_concat (prerequisites c) [] (prerequisites c)
                eq_refl Hmax) as H.
  change (Z.of_nat (length [])) with 0 in H. by rewrite H.
Qed.

Lemma print_Course_text_witness :
  print_Course (mkCourse "CSCI400" "Large Software Development"
                  ["CSCI301"; "CSCI350"])
  = Done ("Number: CSCI400" +:+ endl +:+ "Title: Large Software Development"
          +:+ endl +:+ "Prerequisites: CSCI301, CSCI350").
Proof.
  apply (print_Course_text (mkCourse "CSCI400" "Large Software Development"
                              ["CSCI301"; "CSCI350"])).
  vm_compute. discriminate.
Defined.

(** ** insert *)

Lemma chain_keys_link_last p n :
  chain_keys (link_last p n) = chain_keys p ++ chain_keys n.
Proof. induction p as [|c k p IH]; simpl; [done | by rewrite IH]. Qed.

Lemma search_chain_link_last_other course_number p c k :
  number c ≠ course_number →
  search_chain course_number (link_last p (heap c k nullptr))
  = search_chain course_number p.
Proof.
  intros Hne. induction p as [|c' k' p IH]; simpl.
  - by destruct (String.eqb_spec (number c) course_number).
  - by rewrite IH.
Qed.

(** X4.  [insert] on a table with at least one slot always returns; it
    keeps the number of slots, and it puts the record after the records of
    its slot: the export of the new table is the export of the old one with
    the record inserted at one place, all other records in their order.  No
    record is replaced or dropped, also when the number is already
    stored. *)
Theorem insert_adds_one_record (sum0 : Z) (t : HashTable) (c : Course) :
  table_ok t →
  ∃ t' before after,
    insert sum0 t c = Done t'
    ∧ table_ok t' ∧ m_size t' = m_size t
    ∧ toVector t = before ++ after
    ∧ toVector t' = before ++ c :: after.
Proof.
  intros Hok.
  destruct (slot_of_key sum0 t (number c) Hok) as (k & head & Hh & Hk & Hat & Hl).
  destruct Hok as [Hm Hlen].
  exists (match key head =? UINT_MAX with
          | true => {| m_nodes := <[Z.to_nat k := mkNode c k nullptr]> (m_nodes t);
                       m_size := m_size t |}
          | false => {| m_nodes :=
                          <[Z.to_nat k :=
                              {| course := course head; key := key head;
                                 next := link_last (next head)
                                           (new_Node (mkNode c k nullptr)) |}]>
                            (m_nodes t);
                        m_size := m_size t |}
          end),
         (flat_map slot_courses (take (Z.to_nat k) (m_nodes t))
          ++ slot_courses head),
         (flat_map slot_courses (drop (S (Z.to_nat k)) (m_nodes t))).
  unfold insert. rewrite Hh, bind_Done, Hat, bind_Done.
  destruct (Z.eqb_spec (key head) UINT_MAX) as [He|Hne];
    rewrite set_at_in_range by lia; rewrite bind_Done;
    (split; [reflexivity|]);
    (split; [split; simpl; [done | by rewrite length_insert]|]);
    (split; [done|]);
    rewrite (toVector_slot t _ _ Hl), (toVector_set_slot t _ _ _ Hl),
      <- !app_assoc; (split; [done|]).
  - rewrite (slot_courses_empty head He), slot_courses_used by (simpl; lia).
    done.
  - rewrite !slot_courses_used by done. simpl.
    rewrite chain_courses_link_last. simpl. by rewrite <- !app_assoc.
Qed.

Lemma insert_adds_one_record_witness :
  ∃ t' before after,
    insert 0 (HashTable_new 2) CS100 = Done t'
    ∧ table_ok t' ∧ m_size t' = m_size (HashTable_new 2)
    ∧ toVector (HashTable_new 2) = before ++ after
    ∧ toVector t' = before ++ CS100 :: after.
Proof.
  apply (insert_adds_one_record 0 (HashTable_new 2) CS100).
  apply HashTable_new_ok. unfold UINT_MAX. lia.
Defined.

(** X5.  [insert] does not change what [search] returns for another
    number: for a number that differs from the number of the inserted
    record, a search gives the same result before and after the insertion
    (the two searches start [hash] from the same value; the insertion may
    start from any). *)
Theorem insert_keeps_other_searches (s1 s2 : Z) (t t' : HashTable)
    (c : Course) (course_number : string) :
  table_ok t →
  insert s1 t c = Done t' →
  number c ≠ course_number →
  search s2 t' course_number = search s2 t course_number.
Proof.
  intros Hok Hins Hne.
  destruct (slot_of_key s1 t (number c) Hok) as (k1 & h1 & Hh1 & Hk1 & Hat1 & Hl1).
  destruct (slot_of_key s2 t course_number Hok) as (k & head & Hh & Hk & Hat & Hl).
  destruct Hok as [Hm Hlen].
  unfold insert in Hins. rewrite Hh1, bind_Done, Hat1, bind_Done in Hins.
  assert (Hother : ∀ n, k ≠ k1 →
            at_ (<[Z.to_nat k1 := n]> (m_nodes t)) k = Done head).
  { intros n Hkk. apply at_Done. split; [lia|].
    rewrite list_lookup_insert_ne by lia. done. }
  assert (Hsame : ∀ n, at_ (<[Z.to_nat k1 := n]> (m_nodes t)) k1 = Done n).
  { intros n. apply at_Done. split; [lia|]. apply list_lookup_insert_eq. lia. }
  destruct (Z.eqb_spec (key h1) UINT_MAX) as [He|Hkey];
    rewrite set_at_in_range, bind_Done in Hins by lia;
    injection Hins as <-; unfold search; simpl m_size; simpl m_nodes;
    rewrite Hh, !bind_Done, Hat, bind_Done;
    (destruct (decide (k = k1)) as [->|Hkk];
     [rewrite Hsame | by rewrite Hother]);
    rewrite bind_Done; rewrite Hat1 in Hat; injection Hat as <-; simpl.
  - destruct (Z.eqb_spec k1 UINT_MAX); [lia|].
    destruct (String.eqb_spec (number c) course_number); [done|].
    destruct (Z.eqb_spec (key h1) UINT_MAX); done.
  - destruct (Z.eqb_spec (key h1) UINT_MAX); [done|].
    destruct (String.eqb_spec (number (course h1)) course_number); [done|].
    unfold new_Node. simpl. by rewrite search_chain_link_last_other.
Qed.

Lemma insert_keeps_other_searches_witness :
  search 0 {| m_nodes := [mkNode CS100 0 nullptr]; m_size := 1 |} "CS101"
  = search 0 (HashTable_new 1) "CS101".
Proof.
  apply (insert_keeps_other_searches 0 0 (HashTable_new 1)
           {| m_nodes := [mkNode CS100 0 nullptr]; m_size := 1 |} CS100 "CS101").
  - apply HashTable_new_ok. unfold UINT_MAX. lia.
  - reflexivity.
  - discriminate.
Defined.

Lemma search_chain_link_last_found course_number p q r :
  search_chain course_number p = Some r →
  search_chain course_number (link_last p q) = Some r.
Proof.
  induction p as [|c k p IH]; simpl; [done|].
  by destruct (String.eqb (number c) course_number).
Qed.

(** X6.  [insert] never replaces a record: when a search finds a record for
    a number, it finds the same record after the insertion of another
    record with that number.  Of the records with one number, the one
    inserted first is the one that [search] returns. *)
Theorem insert_does_not_replace (sum0 : Z) (t t' : HashTable) (c r : Course) :
  table_ok t →
  insert sum0 t c = Done t' →
  search sum0 t (number c) = Done r →
  r ≠ Course_empty →
  search sum0 t' (number c) = Done r.
Proof.
  intros Hok Hins Hs Hr.
  destruct (slot_of_key sum0 t (number c) Hok) as (k & head & Hh & Hk & Hat & Hl).
  destruct Hok as [Hm Hlen].
  unfold insert in Hins. rewrite Hh, bind_Done, Hat, bind_Done in Hins.
  unfold search in Hs. rewrite Hh, bind_Done, Hat, bind_Done in Hs.
  destruct (Z.eqb_spec (key head) UINT_MAX) as [He|Hkey]; [congruence|].
  rewrite set_at_in_range, bind_Done in Hins by lia. injection Hins as <-.
  unfold search. simpl m_size. simpl m_nodes. rewrite Hh, bind_Done.
  erewrite (proj2 (at_Done _ _ _));
    [|split; [lia | apply list_lookup_insert_eq; lia]].
  rewrite bind_Done. simpl.
  destruct (Z.eqb_spec (key head) UINT_MAX); [done|].
  destruct (String.eqb_spec (number (course head)) (number c)); [done|].
  destruct (search_chain (number c) (next head)) as [r'|] eqn:Hsc; [|congruence].
  by rewrite (search_chain_link_last_found _ _ _ r').
Qed.

Lemma insert_does_not_replace_witness :
  search 0 {| m_nodes := [mkNode CS100 0 (heap (mkCourse "CS100" "Again" []) 0
                                            nullptr)];
              m_size := 1 |} "CS100"
  = Done CS100.
Proof.
  apply (insert_does_not_replace 0
           {| m_nodes := [mkNode CS100 0 nullptr]; m_size := 1 |}
           _ (mkCourse "CS100" "Again" []) CS100).
  - split; [unfold UINT_MAX; simpl; lia | reflexivity].
  - reflexivity.
  - reflexivity.
  - discriminate.
Defined.

(** X7.  The round trip of [insert] and [search], as far as the code gives
    it: in a table with at least one slot that holds no record with the
    number, a record is found by its number right after its insertion, when
    both calls start [hash] from the same value of [sum]. *)
Theorem search_finds_new_record (sum0 : Z) (t : HashTable) (c : Course) :
  table_ok t →
  number c ∉ number <$> toVector t →
  ∃ t', insert sum0 t c = Done t' ∧ search sum0 t' (number c) = Done c.
Proof. apply search_insert. Qed.

Lemma search_finds_new_record_witness :
  ∃ t', insert 0 (HashTable_new 3) CS101 = Done t'
        ∧ search 0 t' (number CS101) = Done CS101.
Proof.
  apply (search_finds_new_record 0 (HashTable_new 3) CS101).
  - apply HashTable_new_ok. unfold UINT_MAX. lia.
  - simpl. apply not_elem_of_nil.
Defined.

(** ** The tables that a run builds *)

Lemma keys_ok_new t_size : keys_ok (HashTable_new t_size).
Proof.
  intros i head Hi. simpl in Hi.
  apply lookup_replicate in Hi as [-> _]. by left.
Qed.

Lemma insert_keys_ok sum0 t c t' :
  table_ok t → keys_ok t → insert sum0 t c = Done t' → keys_ok t'.
Proof.
  intros Hok Hkeys Hins.
  destruct (slot_of_key sum0 t (number c) Hok) as (k & head & Hh & Hk & Hat & Hl).
  destruct Hok as [Hm Hlen].
  unfold insert in Hins. rewrite Hh, bind_Done, Hat, bind_Done in Hins.
  assert (Hstep : ∀ n, slot_ok k n →
            keys_ok {| m_nodes := <[Z.to_nat k := n]> (m_nodes t);
                       m_size := m_size t |}).
  { intros n Hn i h Hi. simpl in Hi.
    destruct (decide (i = Z.to_nat k)) as [->|Hne].
    - rewrite list_lookup_insert_eq in Hi by lia. injection Hi as <-.
      by rewrite Z2Nat.id by lia.
    - rewrite list_lookup_insert_ne in Hi by done. by apply Hkeys. }
  destruct (Z.eqb_spec (key head) UINT_MAX) as [He|Hkey];
    rewrite set_at_in_range, bind_Done in Hins by lia;
    injection Hins as <-; apply Hstep.
  - right. split; [done | constructor].
  - right. simpl. destruct (Hkeys _ _ Hl) as [[? _]|[Hk' Hall]]; [done|].
    rewrite Z2Nat.id in Hk', Hall by lia. split; [done|].
    rewrite chain_keys_link_last. apply Forall_app. split; [done|].
    by repeat constructor.
Qed.

(** X8.  What holds of every table that is built from a new table with at
    least one slot by insertions, whatever value [hash] starts from in each
    of them: it has as many slots as its size says; a slot that is not in
    use has no chain, and the head and the chain nodes of a slot in use all
    hold the index of that slot as their key; and the table holds the
    inserted records, each as often as it was inserted. *)
Theorem inserted_invariant (t : HashTable) (cs : list Course) :
  inserted t cs → table_ok t ∧ keys_ok t ∧ toVector t ≡ₚ cs.
Proof.
  induction 1 as [t_size Hsz | t cs sum0 c t' _ (Hok & Hkeys & Hperm) Hins].
  - split; [by apply HashTable_new_ok|]. split; [apply keys_ok_new|].
    by rewrite toVector_new.
  - destruct (insert_toVector sum0 t c Hok) as (t'' & Hins' & Hok' & _ & Hp).
    pose proof (insert_keys_ok sum0 t c t' Hok Hkeys Hins) as Hkeys'.
    rewrite Hins in Hins'. injection Hins' as <-.
    split; [done|]. split; [done|].
    by rewrite Hp, Hperm.
Qed.

Lemma inserted_invariant_witness :
  table_ok {| m_nodes := [mkNode CS100 0 nullptr]; m_size := 1 |}
  ∧ keys_ok {| m_nodes := [mkNode CS100 0 nullptr]; m_size := 1 |}
  ∧ toVector {| m_nodes := [mkNode CS100 0 nullptr]; m_size := 1 |}
    ≡ₚ [] ++ [CS100].
Proof.
  apply (inserted_invariant _ ([] ++ [CS100])).
  apply (inserted_insert (HashTable_new 1) [] 0 CS100).
  - apply inserted_new. unfold UINT_MAX. lia.
  - reflexivity.
Defined.

(** X9.  A new table holds no record: its export is empty, and on a new
    table with at least one slot every search returns the empty record,
    whatever [hash] starts from. *)
Theorem new_table_is_empty (sum0 t_size : Z) (course_number : string) :
  0 < t_size <= UINT_MAX →
  toVector (HashTable_new t_size) = []
  ∧ search sum0 (HashTable_new t_size) course_number = Done Course_empty.
Proof.
  intros Hsz. split; [apply toVector_new|].
  apply search_absent; [by apply HashTable_new_ok|].
  rewrite toVector_new. apply not_elem_of_nil.
Qed.

Lemma new_table_is_empty_witness :
  toVector (HashTable_new 179) = []
  ∧ search 42 (HashTable_new 179) "CSCI100" = Done Course_empty.
Proof. apply (new_table_is_empty 42 179 "CSCI100"). unfold UINT_MAX. lia. Defined.

(** ** remove *)

(* induction on chains, two nodes at a time, as the scan of [remove] walks
   them *)
Lemma NodePtr_ind2 (P : NodePtr → Prop) :
  P nullptr →
  (∀ c k, P (heap c k nullptr)) →
  (∀ c k c' k' p, P p → P (heap c' k' p) → P (heap c k (heap c' k' p))) →
  ∀ p, P p.
Proof.
  intros H0 H1 H2 p.
  cut (P p ∧ ∀ c k, P (heap c k p)); [tauto|].
  induction p as [|c' k' p [IHp IHh]]; split; auto.
Qed.

Lemma remove_loop_unlinked course_number p p' :
  remove_loop course_number p = Done p' → unlinked course_number p p'.
Proof.
  revert p'. induction p as [|c k|c k c' k' p IH1 IH2] using NodePtr_ind2;
    intros p'.
  - intros [= <-]. constructor.
  - simpl. destruct (String.eqb (number c) course_number); [done|].
    intros [= <-]. repeat constructor.
  - cbn [remove_loop].
    destruct (String.eqb_spec (number c) course_number) as [He|Hne].
    + intros (r & Hr & [= <-])%bind_Done_inv.
      apply unlinked_drop; [done|]. apply unlinked_keep. by apply IH1.
    + intros (r & Hr & [= <-])%bind_Done_inv.
      apply unlinked_keep. by apply IH2.
Qed.

Lemma unlinked_search course_number p p' other :
  unlinked course_number p p' →
  other ≠ course_number → search_chain other p' = search_chain other p.
Proof.
  intros Hun Hne.
  induction Hun as [|c k p1 p1' _ IH|c k p1 p1' Hc _ IH]; simpl.
  - done.
  - by rewrite IH.
  - destruct (String.eqb_spec (number c) other); [congruence | done].
Qed.

Lemma unlinked_sublist course_number p p' :
  unlinked course_number p p' →
  chain_courses p' `sublist_of` chain_courses p.
Proof.
  induction 1; simpl; [done | by apply sublist_skip | by apply sublist_cons].
Qed.

Lemma unlinked_filter course_number p p' :
  unlinked course_number p p' →
  filter (λ c, number c ≠ course_number) (chain_courses p')
  = filter (λ c, number c ≠ course_number) (chain_courses p).
Proof.
  induction 1 as [|c k p1 p1' _ IH|c k p1 p1' Hc _ IH]; simpl.
  - done.
  - by rewrite !filter_cons, IH.
  - by rewrite filter_cons_False by (intros H; by apply H).
Qed.

Lemma unlinked_keys course_number p p' (P : Z → Prop) :
  unlinked course_number p p' →
  Forall P (chain_keys p) → Forall P (chain_keys p').
Proof.
  induction 1 as [|c k p1 p1' _ IH|c k p1 p1' Hc _ IH]; simpl; [done|..].
  - intros [? ?]%Forall_cons. constructor; auto.
  - intros [? ?]%Forall_cons. auto.
Qed.

Lemma search_slot sum0 t course_number k head :
  hash sum0 (m_size t) course_number = Done k →
  at_ (m_nodes t) k = Done head →
  search sum0 t course_number = Done (slot_find course_number head).
Proof.
  intros Hh Hat. unfold search, slot_find. rewrite Hh, bind_Done, Hat, bind_Done.
  destruct (key head =? UINT_MAX); [done|].
  destruct (String.eqb (number (course head)) course_number); [done|].
  by destruct (search_chain course_number (next head)).
Qed.

(* what a call of [remove] that returns has done: one slot has changed *)
Lemma remove_slot sum0 t t' course_number :
  table_ok t → keys_ok t →
  remove sum0 t course_number = Done t' →
  ∃ k head new,
    0 <= k < m_size t
    ∧ m_nodes t !! Z.to_nat k = Some head
    ∧ t' = {| m_nodes := <[Z.to_nat k := new]> (m_nodes t); m_size := m_size t |}
    ∧ slot_ok k new
    ∧ slot_courses new `sublist_of` slot_courses head
    ∧ filter (λ c, number c ≠ course_number) (slot_courses new)
      = filter (λ c, number c ≠ course_number) (slot_courses head)
    ∧ ∀ other, other ≠ course_number →
               slot_find other new = slot_find other head.
Proof.
  intros Hok Hkeys.
  destruct (slot_of_key sum0 t course_number Hok) as (k & head & Hh & Hk & Hat & Hl).
  destruct Hok as [Hm Hlen].
  pose proof (Hkeys _ _ Hl) as Hslot. rewrite Z2Nat.id in Hslot by lia.
  unfold remove. rewrite Hh, bind_Done, Hat, bind_Done.
  destruct (Z.eqb_spec (key head) UINT_MAX) as [He|Hkey].
  { intros [= <-]. exists k, head, head. split; [done|]. split; [done|].
    split; [rewrite list_insert_id by done; by destruct t|]. done. }
  destruct Hslot as [[? _]|[Hk' Hall]]; [done|].
  destruct (String.eqb_spec (number (course head)) course_number) as [Hn|Hn].
  - destruct (next head) as [|c k' p] eqn:Hnext;
      rewrite set_at_in_range, bind_Done by lia; intros [= <-].
    + exists k, head, Node_empty. split; [done|]. split; [done|].
      split; [done|]. split; [by left|].
      rewrite (slot_courses_used head), Hnext by done.
      change (slot_courses Node_empty) with (@nil Course). simpl.
      split; [apply sublist_nil_l|].
      split; [by rewrite filter_cons_False by (intros H; by apply H)|].
      intros other Hother. unfold slot_find. simpl. rewrite Hnext. simpl.
      destruct (Z.eqb_spec (key head) UINT_MAX); [done|].
      by destruct (String.eqb_spec (number (course head)) other); [congruence|].
    + simpl in Hall. apply Forall_cons in Hall as [-> Hall].
      exists k, head, (mkNode c k p). split; [done|]. split; [done|].
      split; [done|]. split; [by right|].
      rewrite (slot_courses_used head), Hnext by done.
      rewrite slot_courses_used by (simpl; lia). simpl.
      split; [by apply sublist_cons|].
      split; [by rewrite (filter_cons_False _ (course head))
                by (intros H; by apply H)|].
      intros other Hother. unfold slot_find. simpl. rewrite Hnext. simpl.
      destruct (Z.eqb_spec (key head) UINT_MAX); [done|].
      destruct (Z.eqb_spec k UINT_MAX); [lia|].
      destruct (String.eqb_spec (number (course head)) other); [congruence|].
      by destruct (String.eqb (number c) other).
  - intros (p & Hp & Hset)%bind_Done_inv.
    rewrite set_at_in_range, bind_Done in Hset by lia. injection Hset as <-.
    apply remove_loop_unlinked in Hp.
    exists k, head, {| course := course head; key := key head; next := p |}.
    split; [done|]. split; [done|]. split; [done|].
    split; [right; split; [done | by eapply unlinked_keys]|].
    rewrite !slot_courses_used by done. simpl.
    split; [apply sublist_skip; by eapply unlinked_sublist|].
    split; [by rewrite !filter_cons, (unlinked_filter _ _ _ Hp)|].
    intros other Hother. unfold slot_find. simpl.
    by rewrite (unlinked_search _ _ _ other Hp).
Qed.

(** X10.  What a call of [remove] that returns has done to the table (a
    table with its slots, whose nodes hold their slot index as key): the
    size and the invariants are kept, the records that are left are records
    of the old table in their old order, and every record that is gone had
    the number that was given.  No record with another number is ever
    removed. *)
Theorem remove_drops_only_that_number (sum0 : Z) (t t' : HashTable)
    (course_number : string) :
  table_ok t → keys_ok t →
  remove sum0 t course_number = Done t' →
  table_ok t' ∧ keys_ok t' ∧ m_size t' = m_size t
  ∧ toVector t' `sublist_of` toVector t
  ∧ filter (λ c, number c ≠ course_number) (toVector t')
    = filter (λ c, number c ≠ course_number) (toVector t).
Proof.
  intros Hok Hkeys Hrem.
  destruct (remove_slot sum0 t t' course_number Hok Hkeys Hrem)
    as (k & head & new & Hk & Hl & -> & Hslot & Hsub & Hfil & _).
  destruct Hok as [Hm Hlen].
  split; [split; simpl; [done | by rewrite length_insert]|].
  split.
  { intros i h Hi. simpl in Hi.
    destruct (decide (i = Z.to_nat k)) as [->|Hne].
    - rewrite list_lookup_insert_eq in Hi by lia. injection Hi as <-.
      by rewrite Z2Nat.id by lia.
    - rewrite list_lookup_insert_ne in Hi by done. by apply Hkeys. }
  split; [done|].
  rewrite (toVector_slot t _ _ Hl), (toVector_set_slot t _ _ _ Hl).
  split.
  - apply sublist_app; [done|]. by apply sublist_app.
  - by rewrite !filter_app, Hfil.
Qed.

Lemma remove_drops_only_that_number_witness :
  table_ok (HashTable_new 1) ∧ keys_ok (HashTable_new 1)
  ∧ m_size (HashTable_new 1) = 1
  ∧ toVector (HashTable_new 1)
    `sublist_of` toVector {| m_nodes := [mkNode CS100 0 nullptr]; m_size := 1 |}
  ∧ filter (λ c, number c ≠ "CS100") (toVector (HashTable_new 1))
    = filter (λ c, number c ≠ "CS100")
        (toVector {| m_nodes := [mkNode CS100 0 nullptr]; m_size := 1 |}).
Proof.
  apply (remove_drops_only_that_number 0
           {| m_nodes := [mkNode CS100 0 nullptr]; m_size := 1 |}
           (HashTable_new 1) "CS100").
  - split; [unfold UINT_MAX; simpl; lia | reflexivity].
  - intros [|i] h Hi; [|done]. injection Hi as <-.
    right. split; [reflexivity | constructor].
  - reflexivity.
Defined.

(** X11.  [remove] does not change what [search] returns for another
    number: when the call returns, a search for a number that differs from
    the removed one gives the same result as before (the two searches start
    [hash] from the same value; the removal may start from any). *)
Theorem remove_keeps_other_searches (s1 s2 : Z) (t t' : HashTable)
    (course_number other : string) :
  table_ok t → keys_ok t →
  remove s1 t course_number = Done t' →
  other ≠ course_number →
  search s2 t' other = search s2 t other.
Proof.
  intros Hok Hkeys Hrem Hne.
  destruct (remove_slot s1 t t' course_number Hok Hkeys Hrem)
    as (k1 & h1 & new & Hk1 & Hl1 & -> & _ & _ & _ & Hfind).
  destruct (slot_of_key s2 t other Hok) as (k & head & Hh & Hk & Hat & Hl).
  destruct Hok as [Hm Hlen].
  rewrite (search_slot s2 t other k head Hh Hat).
  destruct (decide (k = k1)) as [->|Hkk].
  - rewrite (search_slot s2 _ other k1 new); [|done|].
    + rewrite Hl1 in Hl. injection Hl as <-. by rewrite Hfind.
    + apply at_Done. split; [lia|]. apply list_lookup_insert_eq. lia.
  - apply (search_slot s2 _ other k head); [done|].
    apply at_Done. split; [lia|]. simpl.
    by rewrite list_lookup_insert_ne by lia.
Qed.

Lemma remove_keeps_other_searches_witness :
  search 0 (HashTable_new 1) "CS101"
  = search 0 {| m_nodes := [mkNode CS100 0 nullptr]; m_size := 1 |} "CS101".
Proof.
  apply (remove_keeps_other_searches 0 0
           {| m_nodes := [mkNode CS100 0 nullptr]; m_size := 1 |}
           (HashTable_new 1) "CS100" "CS101").
  - split; [unfold UINT_MAX; simpl; lia | reflexivity].
  - intros [|i] h Hi; [|done]. injection Hi as <-.
    right. split; [reflexivity | constructor].
  - reflexivity.
  - discriminate.
Defined.

(** X12.  The removal of a number that no stored record has is a no-op: the
    call returns and the table is unchanged. *)
Theorem remove_missing_is_noop (sum0 : Z) (t : HashTable)
    (course_number : string) :
  table_ok t →
  course_number ∉ number <$> toVector t →
  remove sum0 t course_number = Done t.
Proof.
  intros Hok Hn.
  destruct (remove_absent sum0 t course_number Hok Hn) as (t' & -> & Hn' & Hs).
  f_equal. destruct t, t'. simpl in *. by subst.
Qed.

Lemma remove_missing_is_noop_witness :
  remove 0 {| m_nodes := [mkNode CS100 0 nullptr]; m_size := 1 |} "CS999"
  = Done {| m_nodes := [mkNode CS100 0 nullptr]; m_size := 1 |}.
Proof.
  apply (remove_missing_is_noop 0
           {| m_nodes := [mkNode CS100 0 nullptr]; m_size := 1 |} "CS999").
  - split; [unfold UINT_MAX; simpl; lia | reflexivity].
  - by intros [= ]%list_elem_of_singleton.
Defined.

(** X13.  The removal of the record at the head of its slot: the call
    returns, the first node of the chain takes the place of the head (the
    slot is free again when there is no chain), and the head record alone
    leaves the table, also when records with the same number follow in the
    chain. *)
Theorem remove_head_of_slot (sum0 : Z) (t : HashTable) (course_number : string)
    (k : Z) (head : Node) :
  table_ok t → keys_ok t →
  hash sum0 (m_size t) course_number = Done k →
  m_nodes t !! Z.to_nat k = Some head →
  key head ≠ UINT_MAX →
  number (course head) = course_number →
  ∃ t' before after,
    remove sum0 t course_number = Done t'
    ∧ toVector t = before ++ course head :: after
    ∧ toVector t' = before ++ after.
Proof.
  intros Hok Hkeys Hh Hl Hkey Hn.
  destruct (slot_of_key sum0 t course_number Hok) as (k0 & h0 & Hh0 & Hk & Hat & Hl0).
  rewrite Hh in Hh0. injection Hh0 as <-. rewrite Hl in Hl0. injection Hl0 as <-.
  destruct Hok as [Hm Hlen].
  destruct (Hkeys _ _ Hl) as [[? _]|[Hk' Hall]]; [done|].
  rewrite Z2Nat.id in Hk', Hall by lia.
  unfold remove. rewrite Hh, bind_Done, Hat, bind_Done.
  destruct (Z.eqb_spec (key head) UINT_MAX); [done|].
  destruct (String.eqb_spec (number (course head)) course_number); [|done].
  rewrite (toVector_slot t _ _ Hl), (slot_courses_used head) by done.
  destruct (next head) as [|c k' p] eqn:Hnext;
    rewrite set_at_in_range, bind_Done by lia;
    eexists; exists (flat_map slot_courses (take (Z.to_nat k) (m_nodes t)));
    eexists; (split; [reflexivity|]); (split; [reflexivity|]);
    rewrite (toVector_set_slot t _ _ _ Hl).
  - done.
  - simpl in Hall. apply Forall_cons in Hall as [-> _].
    by rewrite slot_courses_used by (simpl; lia).
Qed.

Lemma remove_head_of_slot_witness :
  ∃ t' before after,
    remove 0 {| m_nodes := [mkNode CS100 0 (heap CS101 0 nullptr)];
                m_size := 1 |} "CS100" = Done t'
    ∧ toVector {| m_nodes := [mkNode CS100 0 (heap CS101 0 nullptr)];
                  m_size := 1 |} = before ++ CS100 :: after
    ∧ toVector t' = before ++ after.
Proof.
  apply (remove_head_of_slot 0
           {| m_nodes := [mkNode CS100 0 (heap CS101 0 nullptr)]; m_size := 1 |}
           "CS100" 0 (mkNode CS100 0 (heap CS101 0 nullptr))).
  - split; [unfold UINT_MAX; simpl; lia | reflexivity].
  - intros [|i] h Hi; [|done]. injection Hi as <-.
    right. split; [reflexivity | repeat constructor].
  - reflexivity.
  - reflexivity.
  - discriminate.
  - reflexivity.
Defined.

(** X14.  When the numbers of the stored records are all different, and
    [remove] returns, a search for the removed number returns the empty
    record (both calls start [hash] from the same value of [sum]). *)
Theorem remove_then_search (sum0 : Z) (t t' : HashTable)
    (course_number : string) :
  table_ok t →
  NoDup (number <$> toVector t) →
  remove sum0 t course_number = Done t' →
  search sum0 t' course_number = Done Course_empty.
Proof. apply search_after_remove. Qed.

Lemma remove_then_search_witness :
  search 0 (HashTable_new 1) "CS100" = Done Course_empty.
Proof.
  apply (remove_then_search 0
           {| m_nodes := [mkNode CS100 0 nullptr]; m_size := 1 |}
           (HashTable_new 1) "CS100").
  - split; [unfold UINT_MAX; simpl; lia | reflexivity].
  - simpl. apply NoDup_singleton.
  - reflexivity.
Defined.

(* the scan on a chain in which the number is held by one node that is not
   the last, apart from the node right after it, which is not looked at *)
Lemma remove_loop_inside course_number p c k c2 k2 q :
  course_number ∉ number <$> chain_courses p →
  number c = course_number →
  course_number ∉ number <$> chain_courses q →
  remove_loop course_number (link_last p (heap c k (heap c2 k2 q)))
  = Done (link_last p (heap c2 k2 q)).
Proof.
  intros Hp Hc Hq. induction p as [|c' k' p IH]; simpl.
  - destruct (String.eqb_spec (number c) course_number); [|done].
    by rewrite remove_loop_absent.
  - simpl in Hp. rewrite ?fmap_cons, not_elem_of_cons in Hp.
    destruct Hp as [Hne Hp].
    destruct (String.eqb_spec (number c') course_number); [congruence|].
    by rewrite IH.
Qed.

(** X15.  The removal of a record inside a chain: when the head of the slot
    has another number and the record is a chain node that is followed by
    another node, with no other record of that number before it or after the
    node that follows it, the call returns and that record alone leaves the
    table.  The node right after the unlinked one is not compared at all. *)
Theorem remove_inside_chain (sum0 : Z) (t : HashTable) (course_number : string)
    (k : Z) (head : Node) (p q : NodePtr) (c c2 : Course) (k1 k2 : Z) :
  table_ok t →
  hash sum0 (m_size t) course_number = Done k →
  m_nodes t !! Z.to_nat k = Some head →
  key head ≠ UINT_MAX →
  number (course head) ≠ course_number →
  next head = link_last p (heap c k1 (heap c2 k2 q)) →
  course_number ∉ number <$> chain_courses p →
  number c = course_number →
  course_number ∉ number <$> chain_courses q →
  ∃ t' before after,
    remove sum0 t course_number = Done t'
    ∧ toVector t = before ++ c :: after
    ∧ toVector t' = before ++ after.
Proof.
  intros Hok Hh Hl Hkey Hhead Hnext Hp Hc Hq.
  destruct (slot_of_key sum0 t course_number Hok) as (k0 & h0 & Hh0 & Hk & Hat & Hl0).
  rewrite Hh in Hh0. injection Hh0 as <-. rewrite Hl in Hl0. injection Hl0 as <-.
  destruct Hok as [Hm Hlen].
  unfold remove. rewrite Hh, bind_Done, Hat, bind_Done.
  destruct (Z.eqb_spec (key head) UINT_MAX); [done|].
  destruct (String.eqb_spec (number (course head)) course_number); [done|].
  rewrite Hnext, remove_loop_inside, bind_Done by done.
  rewrite set_at_in_range, bind_Done by lia.
  eexists.
  exists (flat_map slot_courses (take (Z.to_nat k) (m_nodes t))
          ++ course head :: chain_courses p),
         (c2 :: chain_courses q
          ++ flat_map slot_courses (drop (S (Z.to_nat k)) (m_nodes t))).
  split; [reflexivity|].
  rewrite (toVector_slot t _ _ Hl), (toVector_set_slot t _ _ _ Hl).
  rewrite !slot_courses_used by done. simpl.
  rewrite Hnext, !chain_courses_link_last. simpl.
  by rewrite <- !app_assoc.
Qed.

Lemma remove_inside_chain_witness :
  ∃ t' before after,
    remove 0 {| m_nodes := [mkNode CS100 0
                              (heap CS101 0
                                 (heap (mkCourse "CS102" "Next" []) 0 nullptr))];
                m_size := 1 |} "CS101" = Done t'
    ∧ toVector {| m_nodes := [mkNode CS100 0
                                (heap CS101 0
                                   (heap (mkCourse "CS102" "Next" []) 0 nullptr))];
                  m_size := 1 |} = before ++ CS101 :: after
    ∧ toVector t' = before ++ after.
Proof.
  apply (remove_inside_chain 0
           {| m_nodes := [mkNode CS100 0
                            (heap CS101 0
                               (heap (mkCourse "CS102" "Next" []) 0 nullptr))];
              m_size := 1 |}
           "CS101" 0
           (mkNode CS100 0
              (heap CS101 0 (heap (mkCourse "CS102" "Next" []) 0 nullptr)))
           nullptr nullptr CS101 (mkCourse "CS102" "Next" []) 0 0).
  - split; [unfold UINT_MAX; simpl; lia | reflexivity].
  - reflexivity.
  - reflexivity.
  - discriminate.
  - discriminate.
  - reflexivity.
  - simpl. apply not_elem_of_nil.
  - reflexivity.
  - simpl. apply not_elem_of_nil.
Defined.

(** X16.  Where [remove] fails: when the head of the slot has another
    number and, of the chain, the last node alone has the number, the call
    ends in the dereference of a null pointer. *)
Theorem remove_of_last_node_faults (sum0 : Z) (t : HashTable)
    (course_number : string) (k : Z) (head : Node) (p : NodePtr) (c : Course)
    (k' : Z) :
  hash sum0 (m_size t) course_number = Done k →
  at_ (m_nodes t) k = Done head →
  key head ≠ UINT_MAX →
  number (course head) ≠ course_number →
  next head = link_last p (heap c k' nullptr) →
  course_number ∉ number <$> chain_courses p →
  number c = course_number →
  remove sum0 t course_number = Fault NullDereference.
Proof. apply remove_last_chain_node. Qed.

Lemma remove_of_last_node_faults_witness :
  remove 0 {| m_nodes := [mkNode CS100 0 (heap CS101 0 nullptr)]; m_size := 1 |}
    "CS101" = Fault NullDereference.
Proof.
  apply (remove_of_last_node_faults 0
           {| m_nodes := [mkNode CS100 0 (heap CS101 0 nullptr)]; m_size := 1 |}
           "CS101" 0 (mkNode CS100 0 (heap CS101 0 nullptr)) nullptr CS101 0).
  - reflexivity.
  - reflexivity.
  - discriminate.
  - discriminate.
  - reflexivity.
  - simpl. apply not_elem_of_nil.
  - reflexivity.
Defined.

(** ** Files and rows *)

Lemma getlines_row row text :
  contains ROW_DEL row = false →
  getlines (row +:+ String ROW_DEL text) = row :: getlines text.
Proof.
  induction row as [|a row IH]; intros Hrow.
  - change ("" +:+ ?x) with x. simpl. done.
  - simpl in Hrow. apply orb_false_iff in Hrow as [Ha Hrow].
    rewrite app_String. simpl. rewrite Ha, IH by done. done.
Qed.

Lemma getlines_last last :
  contains ROW_DEL last = false →
  getlines last = if String.eqb last "" then [] else [last].
Proof.
  induction last as [|a last IH]; intros Hl; [done|].
  simpl in Hl. apply orb_false_iff in Hl as [Ha Hl].
  simpl. rewrite Ha, IH by done. by destruct last.
Qed.

Lemma getlines_no_delimiter text :
  Forall (λ row, contains ROW_DEL row = false) (getlines text).
Proof.
  induction text as [|a text IH]; simpl; [constructor|].
  destruct (Ascii.eqb a ROW_DEL) eqn:Ha; [by constructor|].
  destruct (getlines text) as [|row rows]; constructor.
  - simpl. by rewrite Ha.
  - constructor.
  - simpl. rewrite Ha. by inversion IH.
  - by inversion IH.
Qed.

(** X17.  How the loop over [getline] cuts a file into rows: rows that hold
    no row delimiter, each followed by one, are read back as they are; text
    after the last delimiter is one more row, unless it is empty; and no row
    that is read holds a row delimiter. *)
Theorem getlines_rows (rows : list string) (last text : string) :
  Forall (λ row, contains ROW_DEL row = false) rows →
  contains ROW_DEL last = false →
  getlines (file_text rows +:+ last)
  = rows ++ (if String.eqb last "" then [] else [last])
  ∧ Forall (λ row, contains ROW_DEL row = false) (getlines text).
Proof.
  intros Hrows Hlast. split; [|apply getlines_no_delimiter].
  induction Hrows as [|row rows Hrow _ IH]; simpl file_text.
  - change ("" +:+ ?x) with x. by apply getlines_last.
  - rewrite app_assoc_string, app_String, getlines_row by done.
    by rewrite IH.
Qed.

Lemma getlines_rows_witness :
  getlines (file_text ["CS101,Intro,CS100,"; ""] +:+ "CS100,Basics,")
  = ["CS101,Intro,CS100,"; ""]
    ++ (if String.eqb "CS100,Basics," "" then [] else ["CS100,Basics,"])
  ∧ Forall (λ row, contains ROW_DEL row = false) (getlines example_file).
Proof.
  apply (getlines_rows ["CS101,Intro,CS100,"; ""] "CS100,Basics," example_file).
  - repeat constructor.
  - reflexivity.
Defined.

(** ** loadFromCSV *)

Lemma load_rows_spec sums i t rows :
  table_ok t →
  Forall (λ row, size row <= INT_MAX) rows →
  ∃ t' cs, load_rows sums i t rows = Done t'
           ∧ table_ok t' ∧ m_size t' = m_size t
           ∧ Forall2 (λ row c, read_row row = Done c) rows cs
           ∧ toVector t' ≡ₚ toVector t ++ cs.
Proof.
  intros Hok Hrows. revert i t Hok.
  induction Hrows as [|row rows Hrow _ IH]; intros i t Hok.
  - exists t, []. simpl. rewrite app_nil_r.
    split; [done|]. split; [done|]. split; [done|]. split; [constructor | done].
  - simpl. rewrite (read_row_split row Hrow), bind_Done.
    set (c := {| number := _ |}).
    destruct (insert_toVector (sums i) t c Hok) as (t1 & -> & Hok1 & Hs1 & Hp1).
    rewrite bind_Done.
    destruct (IH (S i) t1 Hok1) as (t' & cs & -> & Hok' & Hs' & Hall & Hp').
    exists t', (c :: cs). split; [done|]. split; [done|].
    split; [congruence|]. split.
    + constructor; [by apply read_row_split | done].
    + rewrite Hp', Hp1. by rewrite <- app_assoc.
Qed.

(** X18.  A load into a table with at least one slot, from a file whose rows
    are shorter than 2^31 characters: the call returns, whatever [hash]
    starts from in each insertion; every row of the file, also an empty or
    an incomplete one, gives one record, the one that the parser reads from
    it; and these records are added to the records that the table holds,
    none of which is replaced or dropped. *)
Theorem loadFromCSV_adds_every_row (sums : nat → Z) (t : HashTable)
    (text : string) :
  table_ok t →
  Forall (λ row, size row <= INT_MAX) (getlines text) →
  ∃ t' cs, loadFromCSV sums t (Some text) = Done t'
           ∧ table_ok t' ∧ m_size t' = m_size t
           ∧ Forall2 (λ row c, read_row row = Done c) (getlines text) cs
           ∧ toVector t' ≡ₚ toVector t ++ cs.
Proof. intros Hok Hrows. by apply load_rows_spec. Qed.

Lemma loadFromCSV_adds_every_row_witness :
  ∃ t' cs, loadFromCSV (λ _, 0) (HashTable_new 2) (Some example_file_delimited)
           = Done t'
           ∧ table_ok t' ∧ m_size t' = m_size (HashTable_new 2)
           ∧ Forall2 (λ row c, read_row row = Done c)
               (getlines example_file_delimited) cs
           ∧ toVector t' ≡ₚ toVector (HashTable_new 2) ++ cs.
Proof.
  apply (loadFromCSV_adds_every_row (λ _, 0) (HashTable_new 2)
           example_file_delimited).
  - apply HashTable_new_ok. unfold UINT_MAX. lia.
  - repeat constructor; vm_compute; discriminate.
Defined.

Lemma Forall2_read_row_eq rows cs1 cs2 :
  Forall2 (λ row c, read_row row = Done c) rows cs1 →
  Forall2 (λ row c, read_row row = Done c) rows cs2 →
  cs1 = cs2.
Proof.
  intros H1. revert cs2. induction H1 as [|row c rows cs1 Hc _ IH];
    intros cs2 H2; inversion H2 as [|? c' ? cs2' Hc' H2']; subst; [done|].
  rewrite Hc in Hc'. injection Hc' as <-. f_equal. by apply IH.
Qed.

(** X19.  A second load of the same file does not replace anything: after
    two loads the table holds every record of the file twice, beside the
    records that it held before. *)
Theorem loadFromCSV_twice (sums1 sums2 : nat → Z) (t t1 t2 : HashTable)
    (text : string) (cs : list Course) :
  table_ok t →
  Forall (λ row, size row <= INT_MAX) (getlines text) →
  Forall2 (λ row c, read_row row = Done c) (getlines text) cs →
  loadFromCSV sums1 t (Some text) = Done t1 →
  loadFromCSV sums2 t1 (Some text) = Done t2 →
  toVector t2 ≡ₚ toVector t ++ cs ++ cs.
Proof.
  intros Hok Hrows Hcs H1 H2.
  destruct (load_rows_spec sums1 0 t (getlines text) Hok Hrows)
    as (t1' & cs1 & H1' & Hok1 & _ & Hcs1 & Hp1).
  unfold loadFromCSV, file_rows in H1, H2.
  rewrite H1 in H1'. injection H1' as <-.
  destruct (load_rows_spec sums2 0 t1 (getlines text) Hok1 Hrows)
    as (t2' & cs2 & H2' & _ & _ & Hcs2 & Hp2).
  rewrite H2 in H2'. injection H2' as <-.
  rewrite (Forall2_read_row_eq _ _ _ Hcs Hcs1) in *.
  rewrite <- (Forall2_read_row_eq _ _ _ Hcs1 Hcs2) in Hp2.
  by rewrite Hp2, Hp1, <- app_assoc.
Qed.

Lemma loadFromCSV_twice_witness :
  toVector {| m_nodes := [mkNode CS100 0 (heap CS100 0 nullptr)]; m_size := 1 |}
  ≡ₚ toVector (HashTable_new 1) ++ [CS100] ++ [CS100].
Proof.
  apply (loadFromCSV_twice (λ _, 0) (λ _, 0) (HashTable_new 1)
           {| m_nodes := [mkNode CS100 0 nullptr]; m_size := 1 |}
           {| m_nodes := [mkNode CS100 0 (heap CS100 0 nullptr)]; m_size := 1 |}
           (file_text ["CS100,Basics,"]) [CS100]).
  - apply HashTable_new_ok. unfold UINT_MAX. lia.
  - repeat constructor; vm_compute; discriminate.
  - repeat constructor.
  - reflexivity.
  - reflexivity.
Defined.

(** ** ValidateFile and main *)

Lemma split_rows_wf rows :
  Forall (λ row, size row <= INT_MAX) rows → Forall row_wf (split_row <$> rows).
Proof.
  intros H. apply Forall_fmap. eapply Forall_impl; [exact H|].
  intros row Hrow. by apply split_row_wf.
Qed.

(* [ValidateFile] on the rows of a file, cut at their delimiters *)
Lemma ValidateFile_getlines (text : string) :
  Forall (λ row, size row <= INT_MAX) (getlines text) →
  Z.of_nat (length (getlines text)) <= INT_MAX →
  ValidateFile (Some text)
  = Done (if forallb two_fields (split_row <$> getlines text)
             && bool_decide (all_prerequisites (split_row <$> getlines text)
                             ⊆ all_numbers (split_row <$> getlines text))
          then Z.of_nat (length (getlines text))
          else -1).
Proof.
  intros Hrows Hlen.
  rewrite (ValidateFile_spec text (split_row <$> getlines text)).
  - by rewrite length_fmap.
  - apply getlines_split.
  - by apply split_rows_wf.
  - by rewrite length_fmap.
Qed.

(** X20.  What [ValidateFile] returns for a file (rows shorter than 2^31
    characters, fewer than 2^31 rows), from the rows cut at their
    delimiters: the number of rows, when every row has two fields that are
    not empty and are followed by a delimiter, and every string that the
    rows give to the set of prerequisites is the first such field of some
    row; and -1 in every other case. *)
Theorem ValidateFile_result (text : string) :
  Forall (λ row, size row <= INT_MAX) (getlines text) →
  Z.of_nat (length (getlines text)) <= INT_MAX →
  ValidateFile (Some text)
  = Done (if forallb two_fields (split_row <$> getlines text)
             && bool_decide (all_prerequisites (split_row <$> getlines text)
                             ⊆ all_numbers (split_row <$> getlines text))
          then Z.of_nat (length (getlines text))
          else -1).
Proof. apply ValidateFile_getlines. Qed.

Lemma ValidateFile_result_witness :
  ValidateFile (Some example_file)
  = Done (if forallb two_fields (split_row <$> getlines example_file)
             && bool_decide
                  (all_prerequisites (split_row <$> getlines example_file)
                   ⊆ all_numbers (split_row <$> getlines example_file))
          then Z.of_nat (length (getlines example_file))
          else -1).
Proof.
  apply (ValidateFile_result example_file).
  - repeat constructor; vm_compute; discriminate.
  - vm_compute. discriminate.
Defined.

(** X21.  A file that cannot be opened, or that has no row: [ValidateFile]
    returns 0, not -1, and [main] goes on with a table that has no slot.  A
    load of the file leaves that table as it is and its export is empty, but
    every [search] and every [remove] on it ends in a division by zero. *)
Theorem file_without_rows (file : option string) :
  file_rows file = [] →
  ValidateFile file = Done 0
  ∧ main_table file = Done (Some (HashTable_new 0))
  ∧ (∀ sums, loadFromCSV sums (HashTable_new 0) file = Done (HashTable_new 0))
  ∧ toVector (HashTable_new 0) = []
  ∧ (∀ sum0 course_number,
       search sum0 (HashTable_new 0) course_number = Fault DivideByZero
       ∧ remove sum0 (HashTable_new 0) course_number = Fault DivideByZero).
Proof.
  intros Hrows.
  assert (Hv : ValidateFile file = Done 0).
  { unfold ValidateFile. rewrite Hrows. reflexivity. }
  split; [done|]. split.
  { unfold main_table. by rewrite Hv. }
  split.
  { intros sums. unfold loadFromCSV. by rewrite Hrows. }
  split; [done|].
  intros sum0 course_number. unfold search, remove. simpl m_size.
  by rewrite hash_size_zero.
Qed.

Lemma file_without_rows_witness :
  ValidateFile None = Done 0
  ∧ main_table None = Done (Some (HashTable_new 0))
  ∧ (∀ sums, loadFromCSV sums (HashTable_new 0) None = Done (HashTable_new 0))
  ∧ toVector (HashTable_new 0) = []
  ∧ (∀ sum0 course_number,
       search sum0 (HashTable_new 0) course_number = Fault DivideByZero
       ∧ remove sum0 (HashTable_new 0) course_number = Fault DivideByZero).
Proof. apply (file_without_rows None). reflexivity. Defined.

(** X22.  From validation to the sorted list: for a file that [ValidateFile]
    accepts, the count that it returns is the number of rows, [main] builds
    a table of that many slots, a load of the file into it returns with one
    record for each row, whatever [hash] starts from, and the sorted list
    holds exactly these records, in the order of their numbers. *)
Theorem validated_file_run (sums : nat → Z) (fuel : nat) (text : string)
    (n : Z) :
  Forall (λ row, size row <= INT_MAX) (getlines text) →
  Z.of_nat (length (getlines text)) <= INT_MAX →
  (length (getlines text) < fuel)%nat →
  ValidateFile (Some text) = Done n → 0 <= n →
  n = Z.of_nat (length (getlines text))
  ∧ main_table (Some text) = Done (Some (HashTable_new n))
  ∧ ∃ t cs sorted,
      loadFromCSV sums (HashTable_new n) (Some text) = Done t
      ∧ Forall2 (λ row c, read_row row = Done c) (getlines text) cs
      ∧ list_sorted fuel t = Done sorted
      ∧ Sorted String.le (number <$> sorted)
      ∧ sorted ≡ₚ cs.
Proof.
  intros Hrows Hlen Hfuel Hv Hn.
  assert (Hcount : n = Z.of_nat (length (getlines text))).
  { rewrite (ValidateFile_getlines text Hrows Hlen) in Hv.
    destruct (_ && _); injection Hv as <-; [done | lia]. }
  split; [done|]. split.
  { unfold main_table. rewrite Hv, bind_Done.
    destruct (Z.ltb_spec n 0); [lia|]. do 3 f_equal.
    unfold to_unsigned, INT_MAX in *. apply Z.mod_small. lia. }
  assert (Hload : ∃ t cs,
            loadFromCSV sums (HashTable_new n) (Some text) = Done t
            ∧ Forall2 (λ row c, read_row row = Done c) (getlines text) cs
            ∧ toVector t ≡ₚ cs).
  { destruct (getlines text) as [|row rows] eqn:Hg.
    - exists (HashTable_new n), []. unfold loadFromCSV, file_rows.
      rewrite Hg. split; [done|]. split; [constructor|].
      by rewrite toVector_new.
    - assert (Hok : table_ok (HashTable_new n)).
      { apply HashTable_new_ok. unfold INT_MAX, UINT_MAX in *.
        simpl in Hcount, Hlen. lia. }
      destruct (load_rows_spec sums 0 (HashTable_new n) (row :: rows) Hok Hrows)
        as (t & cs & Hl & _ & _ & Hcs & Hp).
      exists t, cs. unfold loadFromCSV, file_rows. rewrite Hg.
      split; [done|]. split; [done|]. by rewrite Hp, toVector_new. }
  destruct Hload as (t & cs & Hl & Hcs & Hp).
  pose proof (Forall2_length _ _ _ Hcs) as Hlcs.
  pose proof (Permutation_length Hp) as Hlp.
  destruct (Quicksort_whole fuel (toVector t)) as (sorted & Hq & Hs & Hps);
    [lia | lia |].
  exists t, cs, sorted. split; [done|]. split; [done|]. split; [done|].
  split; [done|]. by rewrite Hps.
Qed.

Lemma validated_file_run_witness :
  2 = Z.of_nat (length (getlines example_file_delimited))
  ∧ main_table (Some example_file_delimited) = Done (Some (HashTable_new 2))
  ∧ ∃ t cs sorted,
      loadFromCSV (λ _, 0) (HashTable_new 2) (Some example_file_delimited)
      = Done t
      ∧ Forall2 (λ row c, read_row row = Done c)
          (getlines example_file_delimited) cs
      ∧ list_sorted 3 t = Done sorted
      ∧ Sorted String.le (number <$> sorted)
      ∧ sorted ≡ₚ cs.
Proof.
  apply (validated_file_run (λ _, 0) 3 example_file_delimited 2).
  - repeat constructor; vm_compute; discriminate.
  - vm_compute. discriminate.
  - simpl. lia.
  - reflexivity.
  - lia.
Defined.

Lemma contains_app c s1 s2 :
  contains c (s1 +:+ s2) = contains c s1 || contains c s2.
Proof.
  induction s1 as [|a s1 IH]; [done|].
  rewrite app_String. simpl. by rewrite IH, orb_assoc.
Qed.

Lemma contains_drop_last c s :
  contains c s = false → contains c (drop_last s) = false.
Proof.
  induction s as [|a s IH]; [done|].
  change (contains c (String a s)) with (Ascii.eqb a c || contains c s).
  intros [Ha Hs]%orb_false_iff. destruct s as [|b s]; [done|].
  change (drop_last (String a (String b s)))
    with (String a (drop_last (String b s))).
  change (contains c (String a (drop_last (String b s))))
    with (Ascii.eqb a c || contains c (drop_last (String b s))).
  by rewrite Ha, IH.
Qed.

Lemma c_str_id s : contains zero s = false → c_str s = s.
Proof.
  induction s as [|a s IH]; [done|]. simpl.
  intros [Ha Hs]%orb_false_iff. by rewrite Ha, IH.
Qed.

(* the record that the parser reads from a row *)
Lemma read_row_fields row c :
  size row <= INT_MAX →
  read_row row = Done c →
  number c = nth 0 (filled (split_row row).1) ""
  ∧ title c = nth 1 (filled (split_row row).1) ""
  ∧ prerequisites c
    = drop 2 (filled (split_row row).1)
      ++ match kept_rest row (split_row row).2 with
         | Some s => [c_str s]
         | None => []
         end.
Proof.
  intros Hsz Hr. rewrite (read_row_split row Hsz) in Hr.
  by injection Hr as <-.
Qed.

(** X23.  What validation gives to the records that are loaded.  For a file
    that [ValidateFile] accepts (rows shorter than 2^31 characters and
    without NUL character), every record that the parser reads from a row
    has a number and a title that are not empty, and every prerequisite of
    every record is the number of a record of the file. *)
Theorem validated_records (text : string) (n : Z) (cs : list Course) :
  Forall (λ row, size row <= INT_MAX) (getlines text) →
  Forall (λ row, contains zero row = false) (getlines text) →
  Z.of_nat (length (getlines text)) <= INT_MAX →
  ValidateFile (Some text) = Done n → 0 <= n →
  Forall2 (λ row c, read_row row = Done c) (getlines text) cs →
  Forall (λ c, number c ≠ "" ∧ title c ≠ ""
               ∧ Forall (λ p, p ∈ number <$> cs) (prerequisites c)) cs.
Proof.
  intros Hsz Hnul Hlen Hv Hn Hcs.
  rewrite (ValidateFile_getlines text Hsz Hlen) in Hv.
  destruct (forallb two_fields (split_row <$> getlines text)) eqn:Htwo;
    [|injection Hv as <-; lia].
  destruct (bool_decide_reflect
              (all_prerequisites (split_row <$> getlines text)
               ⊆ all_numbers (split_row <$> getlines text))) as [Hsub|];
    [|injection Hv as <-; lia].
  clear Hv. rewrite forallb_forall in Htwo.
  rewrite Forall_forall in Hsz, Hnul.
  assert (Hrow : ∀ row, row ∈ getlines text →
            ∃ a b l, filled (split_row row).1 = a :: b :: l ∧ a ≠ "" ∧ b ≠ "").
  { intros row Hin.
    assert (Ht : two_fields (split_row row) = true).
    { apply Htwo. apply list_elem_of_In. by apply list_elem_of_fmap_2. }
    unfold two_fields in Ht. apply Z.leb_le in Ht.
    destruct (filled (split_row row).1) as [|a [|b l]] eqn:HF;
      [simpl in Ht; lia | simpl in Ht; lia |].
    exists a, b, l. split; [done|].
    assert (Ha : a ∈ filled (split_row row).1) by (rewrite HF; by left).
    assert (Hb : b ∈ filled (split_row row).1)
      by (rewrite HF; right; by left).
    apply list_elem_of_filter in Ha as [Ha _].
    apply list_elem_of_filter in Hb as [Hb _]. done. }
  apply Forall_forall. intros c Hc.
  apply list_elem_of_lookup in Hc as [i Hi].
  destruct (Forall2_lookup_r _ _ _ _ _ Hcs Hi) as (row & Hri & Hread).
  assert (Hin : row ∈ getlines text) by (by eapply list_elem_of_lookup_2).
  destruct (read_row_fields row c (Hsz _ Hin) Hread) as (Hnum & Htit & Hpre).
  destruct (Hrow row Hin) as (a & b & l & HF & Ha & Hb).
  rewrite HF in Hnum, Htit, Hpre. simpl in Hnum, Htit, Hpre.
  split; [congruence|]. split; [congruence|].
  apply Forall_forall. intros p Hp.
  assert (Hset : p ∈ all_prerequisites (split_row <$> getlines text)).
  { apply elem_of_union_list. exists (row_prerequisites (split_row row)).
    split; [do 2 apply list_elem_of_fmap_2; done|].
    unfold row_prerequisites. rewrite split_row_text, HF. simpl.
    rewrite Hpre in Hp. apply elem_of_app in Hp as [Hp|Hp].
    - apply elem_of_union_l. by apply elem_of_list_to_set.
    - apply elem_of_union_r.
      destruct (kept_rest row (split_row row).2) as [s|] eqn:Hk;
        [|by apply elem_of_nil in Hp].
      apply list_elem_of_singleton in Hp as ->.
      rewrite c_str_id; [by apply elem_of_singleton|].
      unfold kept_rest in Hk. destruct (size row =? 0); [by injection Hk as <-|].
      destruct (2 <=? size (split_row row).2); [|done]. injection Hk as <-.
      apply contains_drop_last.
      pose proof (Hnul _ Hin) as Hz. rewrite <- (split_row_text row) in Hz.
      unfold row_text in Hz. rewrite contains_app in Hz.
      by apply orb_false_iff in Hz as [_ ?]. }
  apply Hsub in Hset. apply elem_of_union_list in Hset as (X & HX & HpX).
  apply list_elem_of_fmap in HX as (r' & -> & Hr').
  apply list_elem_of_fmap in Hr' as (row' & -> & Hin').
  destruct (Hrow row' Hin') as (a' & b' & l' & HF' & _ & _).
  unfold row_numbers in HpX. rewrite HF' in HpX. simpl in HpX.
  assert (p = a') as -> by set_solver.
  apply list_elem_of_lookup in Hin' as [j Hj].
  destruct (Forall2_lookup_l _ _ _ _ _ Hcs Hj) as (c' & Hcj & Hread').
  destruct (read_row_fields row' c' (Hsz _ (list_elem_of_lookup_2 _ _ _ Hj)) Hread')
    as (Hnum' & _ & _).
  rewrite HF' in Hnum'. simpl in Hnum'. rewrite <- Hnum'.
  apply list_elem_of_fmap_2. by eapply list_elem_of_lookup_2.
Qed.

Lemma validated_records_witness :
  Forall (λ c, number c ≠ "" ∧ title c ≠ ""
               ∧ Forall (λ p, p ∈ number <$> [CS101; CS100]) (prerequisites c))
    [CS101; CS100].
Proof.
  apply (validated_records example_file_delimited 2 [CS101; CS100]).
  - repeat constructor; vm_compute; discriminate.
  - repeat constructor.
  - vm_compute. discriminate.
  - reflexivity.
  - lia.
  - repeat constructor.
Defined.

(** X24.  [Quicksort] on a part of a vector.  For indices
    [0 <= lowIndex] and [highIndex < courses->size()] of a vector of at
    most [INT_MAX] elements the call returns; the result has the elements
    of the vector, the elements at positions outside
    [lowIndex .. highIndex] stay where they are, and the course numbers do
    not decrease along [lowIndex .. highIndex]. *)
Theorem Quicksort_range (fuel : nat) (v : list Course) (lo hi : Z) :
  Z.of_nat (length v) <= INT_MAX →
  0 <= lo → hi < Z.of_nat (length v) → (length v < fuel)%nat →
  ∃ v', Quicksort fuel v lo hi = Done v'
        ∧ v' ≡ₚ v
        ∧ (∀ k : nat, ¬ (lo <= Z.of_nat k <= hi) → v' !! k = v !! k)
        ∧ range_sorted lo hi v'.
Proof.
  intros Hmax Hlo Hhi Hfuel. unfold Quicksort.
  destruct (Quicksort_rec_spec fuel fuel v lo hi)
    as (v' & Hq & Hw & Hs); try lia.
  exists v'. split; [done|]. split; [|split; [|done]].
  - symmetry. by eapply within_Permutation.
  - intros k Hk. by eapply within_outside.
Qed.

Lemma Quicksort_range_witness :
  ∃ v', Quicksort 5 [mkCourse "D" "d" []; mkCourse "C" "c" [];
                     mkCourse "B" "b" []; mkCourse "A" "a" []] 1 3 = Done v'
        ∧ v' ≡ₚ [mkCourse "D" "d" []; mkCourse "C" "c" [];
                 mkCourse "B" "b" []; mkCourse "A" "a" []]
        ∧ (∀ k : nat, ¬ (1 <= Z.of_nat k <= 3) →
             v' !! k = [mkCourse "D" "d" []; mkCourse "C" "c" [];
                        mkCourse "B" "b" []; mkCourse "A" "a" []] !! k)
        ∧ range_sorted 1 3 v'.
Proof.
  apply (Quicksort_range 5 [mkCourse "D" "d" []; mkCourse "C" "c" [];
                            mkCourse "B" "b" []; mkCourse "A" "a" []] 1 3).
  - vm_compute. discriminate.
  - lia.
  - simpl. lia.
  - simpl. lia.
Defined.

(** X25.  The [partition] lambda of [Quicksort].  For
    [0 <= low < high < courses->size()] it returns an index
    [lowEndIndex] with [low <= lowEndIndex < high], so both recursive
    calls get a shorter range; it keeps the elements of the vector and
    leaves those outside [low .. high] in place; and the number of the
    element that was at the midpoint, the pivot, is not below any number
    at [low .. lowEndIndex] and not above any number at
    [lowEndIndex + 1 .. high]. *)
Theorem partition_result (fuel : nat) (v : list Course) (lo hi : Z)
    (c : Course) :
  Z.of_nat (length v) <= INT_MAX →
  0 <= lo < hi → hi < Z.of_nat (length v) → (length v < fuel)%nat →
  v !! Z.to_nat (lo + (hi - lo) / 2) = Some c →
  ∃ v' h, partition fuel v lo hi = Done (v', h)
          ∧ lo <= h < hi
          ∧ v' ≡ₚ v
          ∧ (∀ k : nat, ¬ (lo <= Z.of_nat k <= hi) → v' !! k = v !! k)
          ∧ range_all lo h (λ c', String.le (number c') (number c)) v'
          ∧ range_all (h + 1) hi (λ c', String.le (number c) (number c')) v'.
Proof.
  intros Hmax Hlo Hhi Hfuel Hc. unfold partition.
  rewrite (to_int_small (hi - lo)) by (unfold INT_MIN, INT_MAX in *; lia).
  rewrite Z.quot_div_nonneg by lia.
  assert (Hq : 0 <= (hi - lo) / 2 < hi - lo).
  { pose proof (Z.div_pos (hi - lo) 2). pose proof (Z.div_lt (hi - lo) 2). lia. }
  rewrite (to_int_small (lo + _)) by (unfold INT_MIN, INT_MAX in *; lia).
  set (m := lo + (hi - lo) / 2) in *.
  assert (Hm : lo <= m < hi) by (unfold m; lia).
  rewrite (at_lookup v m c), bind_Done by (lia || done).
  assert (Hrefl : String.ltb (number c) (number c) = false).
  { unfold String.ltb.
    assert (String.compare (number c) (number c) = Eq) as ->; [|done].
    pose proof (String.compare_antisym (number c) (number c)).
    destruct (String.compare (number c) (number c)); done. }
  destruct (partition_loop_spec fuel fuel (number c) lo hi v lo hi)
    as (v' & h & Hp & Hh & Hw & Hle & Hge); try lia.
  - intros i ci Hi. lia.
  - intros i ci Hi. lia.
  - exists (Z.to_nat m), c. split; [lia|]. split; [done|]. split; [done|]. lia.
  - exists (Z.to_nat m), c. split; [lia|]. done.
  - exists v', h. split; [done|]. split; [done|]. split; [|split; [|done]].
    + symmetry. by eapply within_Permutation.
    + intros k Hk. by eapply within_outside.
Qed.

Lemma partition_result_witness :
  ∃ v' h, partition 4 [mkCourse "C" "c" []; mkCourse "B" "b" [];
                       mkCourse "A" "a" []] 0 2 = Done (v', h)
          ∧ 0 <= h < 2
          ∧ v' ≡ₚ [mkCourse "C" "c" []; mkCourse "B" "b" [];
                   mkCourse "A" "a" []]
          ∧ (∀ k : nat, ¬ (0 <= Z.of_nat k <= 2) →
               v' !! k = [mkCourse "C" "c" []; mkCourse "B" "b" [];
                          mkCourse "A" "a" []] !! k)
          ∧ range_all 0 h
              (λ c', String.le (number c') (number (mkCourse "B" "b" []))) v'
          ∧ range_all (h + 1) 2
              (λ c', String.le (number (mkCourse "B" "b" [])) (number c')) v'.
Proof.
  apply (partition_result 4 [mkCourse "C" "c" []; mkCourse "B" "b" [];
                             mkCourse "A" "a" []] 0 2 (mkCourse "B" "b" [])).
  - vm_compute. discriminate.
  - lia.
  - simpl. lia.
  - simpl. lia.
  - reflexivity.
Defined.
